(** * SRTF scheduling simulator: scheduler engine and segment builder

    A shallow embedding of [srtf_scheduling] (srtf_logic.py) and of
    [build_segments] (srtf_gui.py), with the properties of the
    specification stated over it.

    Python integers are unbounded: they are modelled by [Z].  A process
    descriptor is a Python dict; following the docstring of
    [srtf_scheduling] its ['pid'] entry is a string and every other entry
    the scheduler touches is an integer, so a descriptor is a [pid]
    together with a finite map from the remaining keys to integers.
    Errors raised by dict and list indexing are results of the model, and
    the [while] loop runs on fuel (one unit per iteration). *)

From Stdlib Require Import ZArith QArith_base Lia Ascii HexString.
From stdpp Require Import gmap strings list fin_maps numbers sorting.

Local Open Scope Z_scope.

(** ** Outcomes of a Python computation *)

Inductive exn : Type :=
  | KeyError (k : string)
  | IndexError.

Inductive outcome (A : Type) : Type :=
  | Ok (a : A)
  | Raise (e : exn)
  | OutOfFuel.

Arguments Ok {A} a.
Arguments Raise {A} e.
Arguments OutOfFuel {A}.

#[global] Instance outcome_bind : MBind outcome := λ A B k m,
  match m with
  | Ok a => k a
  | Raise e => Raise e
  | OutOfFuel => OutOfFuel
  end.

(** [for x in l: acc = f(acc, x)], with the errors of the body. *)
Fixpoint for_each {A B : Type} (f : A → B → outcome A) (acc : A) (l : list B)
  : outcome A :=
  match l with
  | [] => Ok acc
  | x :: l' => acc' ← f acc x; for_each f acc' l'
  end.

(** [[f(x) for x in l]], with the errors of [f]. *)
Fixpoint comprehension {A B : Type} (f : A → outcome B) (l : list A)
  : outcome (list B) :=
  match l with
  | [] => Ok []
  | x :: l' => y ← f x; ys ← comprehension f l'; Ok (y :: ys)
  end.

(** ** Process descriptors *)

Record proc : Type := Proc { pid : string; fields : gmap string Z }.

(** [p[k]] *)
Definition getitem (p : proc) (k : string) : outcome Z :=
  match fields p !! k with
  | Some v => Ok v
  | None => Raise (KeyError k)
  end.

(** [p[k] = v] *)
Definition setitem (p : proc) (k : string) (v : Z) : proc :=
  Proc (pid p) (<[k := v]> (fields p)).

(** [k in p] *)
Definition contains (p : proc) (k : string) : bool :=
  bool_decide (is_Some (fields p !! k)).

(** [p.get(k, d)] *)
Definition get_default (p : proc) (k : string) (d : Z) : Z :=
  default d (fields p !! k).

(** [l[i]] for [0 <= i]. *)
Definition index {A : Type} (l : list A) (i : nat) : outcome A :=
  match l !! i with
  | Some x => Ok x
  | None => Raise IndexError
  end.

(** ** srtf_logic.py *)

(** One statement of the aliasing loop,
    [if old in p and new not in p: p[new] = p[old]]; the test [old in p]
    and the read [p[old]] are one lookup. *)
Definition alias_step (new old : string) (p : proc) : proc :=
  match fields p !! old with
  | Some v => if contains p new then p else setitem p new v
  | None => p
  end.

(** Body of the aliasing loop (lines 23-27). *)
Definition alias (p : proc) : proc :=
  let p := alias_step "arrival" "arrival_time" p in
  alias_step "burst" "burst_time" p.

(** [procs.sort(key=lambda x: x['arrival'])]: the keys are computed first,
    one per element and in order; the sort is stable.  It is modelled by
    a stable insertion sort of the decorated list. *)
Definition decorate (p : proc) : outcome (Z * proc) :=
  a ← getitem p "arrival"; Ok (a, p).

Fixpoint insert_by_key (x : Z * proc) (l : list (Z * proc)) : list (Z * proc) :=
  match l with
  | [] => [x]
  | y :: l' =>
      if bool_decide (x.1 ≤ y.1) then x :: y :: l' else y :: insert_by_key x l'
  end.

Fixpoint sort_decorated (l : list (Z * proc)) : list (Z * proc) :=
  match l with
  | [] => []
  | x :: l' => insert_by_key x (sort_decorated l')
  end.

Definition sort_by_arrival (ps : list proc) : outcome (list proc) :=
  keyed ← comprehension decorate ps;
  Ok (snd <$> sort_decorated keyed).

(** The local variables of the simulation loop. *)
Record state : Type := State {
  procs : list proc;
  remaining : list Z;
  completed : nat;
  t : Z;
  gantt : list string
}.

(** The sentinel [10**9] of line 39. *)
Definition sentinel : Z := 10 ^ 9.

(** Body of the [for i in range(n)] scan (lines 41-44); the accumulator
    is [(idx, min_rem)], with [idx = -1] rendered as [None]. *)
Definition scan_at (st : state) (acc : option nat * Z) (i : nat)
  : outcome (option nat * Z) :=
  p ← index (procs st) i;
  a ← getitem p "arrival";
  if bool_decide (a ≤ t st) then
    r ← index (remaining st) i;
    if bool_decide (0 < r) then
      if bool_decide (r < acc.2) then Ok (Some i, r) else Ok acc
    else Ok acc
  else Ok acc.

Definition scan (n : nat) (st : state) : outcome (option nat * Z) :=
  for_each (scan_at st) (None, sentinel) (seq 0 n).

(** Lines 55-62, run when the selected process has no remaining burst. *)
Definition complete (p : proc) (finish : Z) : outcome proc :=
  let p := setitem p "ct" finish in
  a ← getitem p "arrival";
  let p := setitem p "tat" (finish - a) in
  tat ← getitem p "tat";
  b ← getitem p "burst";
  let p := setitem p "wt" (tat - b) in
  wt ← getitem p "wt";
  Ok (if bool_decide (wt < 0) then setitem p "wt" 0 else p).

(** One iteration of the [while] loop (lines 38-62). *)
Definition loop_body (n : nat) (st : state) : outcome state :=
  acc ← scan n st;
  match acc.1 with
  | None =>
      Ok (State (procs st) (remaining st) (completed st) (t st + 1)
                (gantt st ++ ["Idle"%string]))
  | Some idx =>
      p ← index (procs st) idx;
      let gantt' := gantt st ++ [pid p] in
      r ← index (remaining st) idx;
      let remaining' := <[idx := r - 1]> (remaining st) in
      let t' := t st + 1 in
      r' ← index remaining' idx;
      if bool_decide (r' = 0) then
        p' ← complete p t';
        Ok (State (<[idx := p']> (procs st)) remaining' (S (completed st)) t' gantt')
      else
        Ok (State (procs st) remaining' (completed st) t' gantt')
  end.

(** [while completed < n: ...]; [fuel] bounds the number of iterations. *)
Fixpoint while_loop (fuel : nat) (n : nat) (st : state) : outcome state :=
  if bool_decide (completed st < n)%nat then
    match fuel with
    | O => OutOfFuel
    | S fuel' => st' ← loop_body n st; while_loop fuel' n st'
    end
  else Ok st.

(** [sum(p.get(k, 0) for p in procs)] *)
Definition sum_get (k : string) (ps : list proc) : Z :=
  foldr (λ p acc, get_default p k 0 + acc) 0 ps.

(** [total / n] for [n = len(procs) > 0].  Python rounds the quotient of
    the two integers to the nearest double; the model keeps the exact
    quotient, of which that double is a function. *)
Definition truediv (total : Z) (n : nat) : Q := Qmake total (Pos.of_nat n).

Definition result : Type := list proc * Q * Q * list string.

Definition initial_state (ps : list proc) (rem : list Z) : state :=
  State ps rem 0 0 [].

Definition srtf_scheduling (fuel : nat) (processes : list proc) : outcome result :=
  match processes with
  | [] => Ok ([], Qmake 0 1, Qmake 0 1, [])
  | _ :: _ =>
      let ps := alias <$> processes in
      ps ← sort_by_arrival ps;
      let n := length ps in
      rem ← comprehension (λ p, getitem p "burst") ps;
      st ← while_loop fuel n (initial_state ps rem);
      let total_wt := sum_get "wt" (procs st) in
      let total_tat := sum_get "tat" (procs st) in
      let avg_wt := truediv total_wt n in
      let avg_tat := truediv total_tat n in
      Ok (procs st, avg_wt, avg_tat, gantt st)
  end.

(** ** srtf_gui.py: build_segments *)

Section segments.
Context {L : Type} `{EqDecision L}.

(** A segment is the tuple [(cur, start, length)]. *)
Definition segment : Type := L * nat * nat.

(** The [for i in range(1, len(gantt))] loop followed by the final
    [segs.append] (lines 41-49): [l] holds [gantt[i:]]. *)
Fixpoint build_loop (l : list L) (i : nat) (segs : list segment)
    (cur : L) (start length : nat) : list segment :=
  match l with
  | [] => segs ++ [(cur, start, length)]
  | x :: l' =>
      if decide (x = cur)
      then build_loop l' (S i) segs cur start (S length)
      else build_loop l' (S i) (segs ++ [(cur, start, length)]) x i 1
  end.

Definition build_segments (gantt : list L) : list segment :=
  match gantt with
  | [] => []
  | cur :: l => build_loop l 1 [] cur 0 1
  end.

(** Repeating each segment's label [length] times, in order. *)
Definition expand (segs : list segment) : list L :=
  concat ((λ s : segment, replicate s.2 s.1.1) <$> segs).
End segments.

(** ** srtf_gui.py: color_for_pid *)

(** [format(v, "x")]: lowercase hexadecimal digits, with a sign for a
    negative number. *)
Definition format_x (v : Z) : string :=
  match v with
  | Z0 => "0"
  | Zpos p => HexString.Raw.of_pos p ""
  | Zneg p => String "-"%char (HexString.Raw.of_pos p "")
  end.

(** ["{:02x}".format(v)]: the same, padded with zeros on the left to a
    width of two characters (a sign counts in the width). *)
Definition format_02x (v : Z) : string :=
  let s := format_x v in
  if bool_decide (String.length s < 2)%nat then String "0"%char s else s.

(** [int((c + 180) / 2) if c < 100 else c] (lines 25-27).  The sum is a
    small integer, so the float quotient is exact and [int] truncates it
    towards zero. *)
Definition brighten (c : Z) : Z :=
  if bool_decide (c < 100) then Z.quot (c + 180) 2 else c.

(** Lines 19-28.  [hash] is Python's built-in hash on strings, which is
    salted per interpreter run: it is a parameter of the model. *)
Definition color_for_pid (hash : string → Z) (pid : string) : string :=
  let h := Z.abs (hash pid) `mod` 16777215 in
  let r := Z.land (Z.shiftr h 16) 255 in
  let g := Z.land (Z.shiftr h 8) 255 in
  let b := Z.land h 255 in
  let r := brighten r in
  let g := brighten g in
  let b := brighten b in
  String "#"%char (format_02x r +:+ format_02x g +:+ format_02x b).

(** ** srtf_gui.py: what the chart code computes from the segments

    The widgets, the canvas geometry (floats) and the timer are left
    out; what follows is the data of [_draw_gantt_with_animation] and
    [_animate_step] that decides which blocks are drawn, with which label
    and in which colours. *)

(** [sum(length for (_, _, length) in segments)] (line 255). *)
Definition total_units (segments : list (string * nat * nat)) : nat :=
  foldr (λ s acc, s.2 + acc)%nat 0%nat segments.

(** Lines 270-273: the colour of each label. *)
Definition color_map_step (hash : string → Z) (cm : gmap string string)
    (s : string * nat * nat) : gmap string string :=
  let pid := s.1.1 in
  if bool_decide (pid ≠ "Idle"%string) && bool_decide (cm !! pid = None)
  then <[pid := color_for_pid hash pid]> cm
  else cm.

Definition color_map (hash : string → Z) (segments : list (string * nat * nat))
  : gmap string string :=
  foldl (color_map_step hash) {["Idle"%string := "#d6dde0"%string]} segments.

(** Lines 277-279: [per_unit_list.extend([pid]*length)] for each segment. *)
Definition per_unit_list (segments : list (string * nat * nat)) : list string :=
  foldl (λ acc s, acc ++ replicate s.2 s.1.1) [] segments.

(** The entries of [_anim_state] that select the blocks. *)
Record anim_state : Type := AnimState {
  per_unit : list string;
  colors : gmap string string;
  index_ : nat
}.

(** [_draw_gantt_with_animation]: nothing is set up when there is no
    unit to draw (lines 255-257). *)
Definition draw_gantt (hash : string → Z) (segments : list (string * nat * nat))
  : option anim_state :=
  if bool_decide (total_units segments = 0%nat) then None
  else Some (AnimState (per_unit_list segments) (color_map hash segments) 0).

(** A drawn block: its label, its fill colour and the colour of its text. *)
Definition block : Type := string * string * string.

(** [_animate_step] (lines 300-323): [None] when the index has reached
    the end of the list (the time markers are drawn and the animation
    stops), otherwise the block drawn and the state of the next call. *)
Definition animate_step (st : anim_state) : option (block * anim_state) :=
  match per_unit st !! index_ st with
  | None => None
  | Some pid =>
      let color := default "#cccccc"%string (colors st !! pid) in
      let text := if bool_decide (pid ≠ "Idle"%string)
                  then "#fff"%string else "#333"%string in
      Some ((pid, color, text),
            AnimState (per_unit st) (colors st) (S (index_ st)))
  end.

(** The blocks drawn by the first [calls] timer calls. *)
Fixpoint animate (calls : nat) (st : anim_state) : list block :=
  match calls with
  | O => []
  | S calls' =>
      match animate_step st with
      | None => []
      | Some (b, st') => b :: animate calls' st'
      end
  end.

(** ** srtf_gui.py: on_calculate *)

(** The row of the statistics table (line 234). *)
Definition stats_row (p : proc) : outcome (string * Z * Z * Z * Z * Z) :=
  a ← getitem p "arrival";
  b ← getitem p "burst";
  ct ← getitem p "ct";
  tat ← getitem p "tat";
  wt ← getitem p "wt";
  Ok (pid p, a, b, ct, tat, wt).

(** What [on_calculate] puts on the screen: a warning when there is no
    process, otherwise the table rows, the two averages of the footer,
    the values of the dropdown and the animation of the chart. *)
Inductive screen : Type :=
  | NoData
  | Shown (rows : list (string * Z * Z * Z * Z * Z)) (avg_wt avg_tat : Q)
          (dropdown : list string) (anim : option anim_state).

(** Lines 221-245. *)
Definition on_calculate (hash : string → Z) (fuel : nat) (processes : list proc)
  : outcome screen :=
  match processes with
  | [] => Ok NoData
  | _ :: _ =>
      '(procs, avg_wt, avg_tat, gantt) ← srtf_scheduling fuel processes;
      rows ← comprehension stats_row procs;
      let dropdown := pid <$> procs in
      let segments := build_segments gantt in
      Ok (Shown rows avg_wt avg_tat dropdown (draw_gantt hash segments))
  end.

(** ** srtf_gui.py: show_selected_process_stats *)

(** Lines 338-346: the turnaround and waiting times put in the label for
    the pid chosen in the dropdown, those of the first record with that
    pid; [None] when no record has it and the label is left as it is. *)
Fixpoint show_selected_process_stats (proc_results : list proc) (selected : string)
  : outcome (option (Z * Z)) :=
  match proc_results with
  | [] => Ok None
  | p :: rest =>
      if decide (pid p = selected) then
        tat ← getitem p "tat";
        wt ← getitem p "wt";
        Ok (Some (tat, wt))
      else show_selected_process_stats rest selected
  end.

(** * Specification vocabulary *)

(** ** One tick of the simulation *)

(** Process [i] may be selected at the current tick, and has [r] units
    left. *)
Definition runnable (st : state) (i : nat) (r : Z) : Prop :=
  ∃ p a, procs st !! i = Some p ∧ fields p !! "arrival" = Some a ∧
         remaining st !! i = Some r ∧ a ≤ t st ∧ 0 < r.

(** What [(idx, min_rem)] holds after the scan of the indices below [k]. *)
Definition scan_post (st : state) (k : nat) (acc : option nat * Z) : Prop :=
  match acc.1 with
  | None =>
      acc.2 = sentinel ∧ ∀ j r, (j < k)%nat → runnable st j r → sentinel ≤ r
  | Some i =>
      (i < k)%nat ∧ runnable st i acc.2 ∧ acc.2 < sentinel ∧
      (∀ j r, (j < k)%nat → runnable st j r → acc.2 ≤ r) ∧
      (∀ j r, (j < i)%nat → runnable st j r → acc.2 < r)
  end.

Definition has_keys (p : proc) : Prop :=
  is_Some (fields p !! "arrival") ∧ is_Some (fields p !! "burst").

Record well_formed (n : nat) (st : state) : Prop := {
  wf_procs : length (procs st) = n;
  wf_remaining : length (remaining st) = n;
  wf_keys : Forall has_keys (procs st)
}.

(** The record of a process that completes at tick [c]. *)
Definition finished (p : proc) (c a b : Z) : proc :=
  setitem (setitem (setitem p "ct" c) "tat" (c - a)) "wt" (Z.max 0 (c - a - b)).

(** The state after an idle tick, and after a tick given to process [i]
    (descriptor [p], arrival [a], burst [b], [r] units left). *)
Definition idle_state (st : state) : state :=
  State (procs st) (remaining st) (completed st) (t st + 1)
        (gantt st ++ ["Idle"%string]).

Definition run_state (st : state) (i : nat) (p : proc) (a b r : Z) : state :=
  State (if bool_decide (r = 1)
         then <[i := finished p (t st + 1) a b]> (procs st) else procs st)
        (<[i := r - 1]> (remaining st))
        (if bool_decide (r = 1) then S (completed st) else completed st)
        (t st + 1) (gantt st ++ [pid p]).

(** One iteration, as a relation labelled by the selected index. *)
Inductive step (st : state) : option nat → state → Prop :=
  | step_idle :
      (∀ j r, runnable st j r → sentinel ≤ r) →
      step st None (idle_state st)
  | step_run i p a b r :
      procs st !! i = Some p →
      fields p !! "arrival" = Some a →
      fields p !! "burst" = Some b →
      remaining st !! i = Some r →
      a ≤ t st → 0 < r → r < sentinel →
      (∀ j r', runnable st j r' → r ≤ r') →
      (∀ j r', (j < i)%nat → runnable st j r' → r < r') →
      step st (Some i) (run_state st i p a b r).

(** ** Sums and counts over the loop's lists *)

Definition sumZ (l : list Z) : Z := foldr Z.add 0 l.

Definition count_zero (l : list Z) : nat := length (filter (λ r, r = 0) l).

(** Number of ["Idle"] entries of a trace. *)
Definition count_idle (g : list string) : nat :=
  length (filter (λ s, s = "Idle"%string) g).

Definition max_arrival (AL : list Z) : Z := foldr Z.max 0 AL.

(** ** The run as a sequence of ticks *)

(** The state after [k] iterations of the loop body. *)
Fixpoint iterate (k n : nat) (st : state) : outcome state :=
  match k with
  | O => Ok st
  | S k' => st' ← loop_body n st; iterate k' n st'
  end.

(** The index found by the scan of iteration [k] (tick [k], counting from
    0): [Some i] when process [i] of the sorted list executes one unit,
    [None] when the tick is idle. *)
Definition selection (n : nat) (st0 : state) (k : nat) : outcome (option nat) :=
  st ← iterate k n st0; acc ← scan n st; Ok acc.1.

(** The trace entry of a selection. *)
Definition label (ps0 : list proc) (sel : option nat) : option string :=
  match sel with
  | None => Some "Idle"%string
  | Some i => pid <$> ps0 !! i
  end.

(** Invariant of process [i] after [k] iterations: [r] units are left of
    its burst [b]; once none is left its record is final, tick [c] was its
    last one, and [ct = c + 1]. *)
Definition proc_inv (n : nat) (st0 : state) (k : nat) (st : state)
    (i : nat) (p0 : proc) (a b r : Z) : Prop :=
  0 ≤ r ≤ b ∧ (r = b ∨ a + (b - r) ≤ Z.of_nat k) ∧
  if bool_decide (r = 0) then
    ∃ c : nat,
      a + b ≤ Z.of_nat (S c) ∧ (S c ≤ k)%nat ∧
      procs st !! i = Some (finished p0 (Z.of_nat (S c)) a b) ∧
      selection n st0 c = Ok (Some i) ∧
      ∀ j, (c < j < k)%nat → selection n st0 j ≠ Ok (Some i)
  else procs st !! i = Some p0.

(** Invariant of the loop after [k] iterations, for the sorted list [ps0]
    with arrivals [AL] and bursts [BL]. *)
Record inv (ps0 : list proc) (AL BL : list Z) (k : nat) (st : state) : Prop := {
  inv_reach : iterate k (length ps0) (initial_state ps0 BL) = Ok st;
  inv_wf : well_formed (length ps0) st;
  inv_t : t st = Z.of_nat k;
  inv_gantt : length (gantt st) = k;
  inv_completed : completed st = count_zero (remaining st);
  inv_sum : sumZ (remaining st) ≤ sumZ BL;
  inv_proc : ∀ i p0 a b,
    ps0 !! i = Some p0 → AL !! i = Some a → BL !! i = Some b →
    ∃ r, remaining st !! i = Some r ∧
         proc_inv (length ps0) (initial_state ps0 BL) k st i p0 a b r;
  inv_trace : ∀ j sel,
    (j < k)%nat →
    selection (length ps0) (initial_state ps0 BL) j = Ok sel →
    gantt st !! j = label ps0 sel;
  inv_idle :
    Forall (λ p, pid p ≠ "Idle"%string) ps0 →
    Z.of_nat (count_idle (gantt st)) + (sumZ BL - sumZ (remaining st))
    = Z.of_nat k;
  inv_bound :
    Forall (λ b, b < sentinel) BL →
    Z.of_nat k ≤ sumZ BL - sumZ (remaining st) + max_arrival AL
}.

(** ** Inputs and outputs of [srtf_scheduling] *)

(** Arrival and burst of a descriptor, under either spelling. *)
Definition arrival_of (p : proc) : option Z := fields (alias p) !! "arrival".
Definition burst_of (p : proc) : option Z := fields (alias p) !! "burst".

(** A descriptor with non-negative arrival and positive burst. *)
Definition valid (p : proc) : bool :=
  match arrival_of p, burst_of p with
  | Some a, Some b => bool_decide (0 ≤ a) && bool_decide (0 < b)
  | _, _ => false
  end.

(** A descriptor whose burst is below the scan's sentinel. *)
Definition below_sentinel (p : proc) : bool :=
  match burst_of p with
  | Some b => bool_decide (b < sentinel)
  | None => false
  end.

(** Sum of all burst times, and latest arrival, of an input list. *)
Definition total_burst (ps : list proc) : Z := sum_get "burst" (alias <$> ps).

Definition latest_arrival (ps : list proc) : Z :=
  max_arrival ((λ p, get_default (alias p) "arrival" 0) <$> ps).

(** Iterations that suffice when every burst is below the sentinel. *)
Definition enough_fuel (ps : list proc) : nat :=
  Z.to_nat (total_burst ps + latest_arrival ps).

(** Order of two records by arrival time. *)
Definition le_arrival (p q : proc) : Prop :=
  match fields p !! "arrival", fields q !! "arrival" with
  | Some a, Some b => a ≤ b
  | _, _ => False
  end.

Definition arrives_at (a : Z) (p : proc) : Prop := fields p !! "arrival" = Some a.

#[global] Instance arrives_at_dec (a : Z) (p : proc) : Decision (arrives_at a p) :=
  decide (fields p !! "arrival" = Some a).

(** The selection of tick [k] in the run of [srtf_scheduling] on
    [processes]; indices are positions in the list sorted by arrival,
    which is the order of the returned records. *)
Definition schedule_at (processes : list proc) (k : nat) : outcome (option nat) :=
  ps ← sort_by_arrival (alias <$> processes);
  rem ← comprehension (λ p, getitem p "burst") ps;
  selection (length ps) (initial_state ps rem) k.

(** ** Segments *)

(** Segments that follow one another from tick [from]: each starts where
    the previous one ends, has a positive length, and differs in label
    from the next. *)
Fixpoint chained {L : Type} (from : nat) (segs : list (L * nat * nat)) : Prop :=
  match segs with
  | [] => True
  | s :: rest =>
      s.1.2 = from ∧ (0 < s.2)%nat ∧
      match rest with [] => True | s' :: _ => s.1.1 ≠ s'.1.1 end ∧
      chained (from + s.2) rest
  end.

(** ** Descriptors and records of the scenarios *)

(** [{"pid": p, "arrival": a, "burst": b}] *)
Definition descriptor (p : string) (a b : Z) : proc :=
  Proc p (<["burst" := b]> (<["arrival" := a]> ∅)).

(** The descriptor above with its ['ct'], ['tat'] and ['wt'] entries. *)
Definition record (p : string) (a b ct tat wt : Z) : proc :=
  Proc p (<["wt" := wt]> (<["tat" := tat]> (<["ct" := ct]>
            (<["burst" := b]> (<["arrival" := a]> ∅))))).

(** ** Field-name spellings *)

(** Renaming the key [old] of a descriptor to [new]. *)
Definition rename_key (old new : string) (p : proc) : proc :=
  match fields p !! old with
  | Some v => Proc (pid p) (<[new := v]> (delete old (fields p)))
  | None => p
  end.

(** Renaming ['arrival'] to ['arrival_time'] when [ra], and ['burst'] to
    ['burst_time'] when [rb]. *)
Definition respell (ra rb : bool) (p : proc) : proc :=
  let p := if ra then rename_key "arrival" "arrival_time" p else p in
  if rb then rename_key "burst" "burst_time" p else p.

(** A descriptor spelled with ['arrival'] and ['burst'] only. *)
Definition plain (p : proc) : Prop :=
  fields p !! "arrival_time" = None ∧ fields p !! "burst_time" = None.

(** Two records with the same pid and the same ct, tat and wt entries. *)
Definition same_metrics (r r' : proc) : Prop :=
  pid r = pid r' ∧
  fields r !! "ct" = fields r' !! "ct" ∧
  fields r !! "tat" = fields r' !! "tat" ∧
  fields r !! "wt" = fields r' !! "wt".

(** Two calls that end the same way, with the same trace, averages and
    metrics if they return. *)
Definition same_outcome (o o' : outcome result) : Prop :=
  match o, o' with
  | Ok (recs, aw, at', g), Ok (recs', aw', at'', g') =>
      Forall2 same_metrics recs recs' ∧ aw = aw' ∧ at' = at'' ∧ g = g'
  | Raise e, Raise e' => e = e'
  | OutOfFuel, OutOfFuel => True
  | _, _ => False
  end.

(** A descriptor without its alternate spellings, and the same for the
    states and results built from descriptors. *)
Definition erase (p : proc) : proc :=
  Proc (pid p) (delete "burst_time" (delete "arrival_time" (fields p))).

Definition erase_state (st : state) : state :=
  State (erase <$> procs st) (remaining st) (completed st) (t st) (gantt st).

Definition erase_result (r : result) : result :=
  let '(recs, aw, at', g) := r in (erase <$> recs, aw, at', g).

#[global] Instance outcome_fmap : FMap outcome := λ A B f m,
  match m with
  | Ok a => Ok (f a)
  | Raise e => Raise e
  | OutOfFuel => OutOfFuel
  end.

(** The keys read and written by the simulation. *)
Definition core_key (k : string) : Prop :=
  k ≠ "arrival_time"%string ∧ k ≠ "burst_time"%string.

(** Lines 29-69 of [srtf_scheduling], on a non-empty list. *)
Definition run_sorted (fuel : nat) (ps : list proc) : outcome result :=
  ps ← sort_by_arrival ps;
  rem ← comprehension (λ p, getitem p "burst") ps;
  st ← while_loop fuel (length ps) (initial_state ps rem);
  Ok (procs st, truediv (sum_get "wt" (procs st)) (length ps),
      truediv (sum_get "tat" (procs st)) (length ps), gantt st).

(** ** Blocks of the chart *)

(** The block drawn for a label: the colour of the "Idle" entry for the
    idle marker, the colour of [color_for_pid] for a pid. *)
Definition block_of (hash : string → Z) (pid : string) : block :=
  (pid,
   if bool_decide (pid = "Idle"%string)
   then "#d6dde0"%string else color_for_pid hash pid,
   if bool_decide (pid ≠ "Idle"%string) then "#fff"%string else "#333"%string).

(** ** Inputs of any shape *)

(** Both fields are present, under either spelling. *)
Definition has_fields (p : proc) : bool :=
  bool_decide (is_Some (arrival_of p)) && bool_decide (is_Some (burst_of p)).

(** A burst that the scan can select and count down to zero: positive
    and below the sentinel. *)
Definition selectable (b : Z) : bool :=
  bool_decide (0 < b) && bool_decide (b < sentinel).

(** Both fields are present and the burst is selectable; the arrival may
    have any sign. *)
Definition schedulable (p : proc) : bool :=
  match arrival_of p, burst_of p with
  | Some _, Some b => selectable b
  | _, _ => false
  end.

(** Number of processes with a selectable burst [b] that still have
    units left in [rem]. *)
Fixpoint pending (BL rem : list Z) : nat :=
  match BL, rem with
  | b :: BL', r :: rem' =>
      ((if selectable b && bool_decide (0 < r)%Z then 1 else 0) + pending BL' rem')%nat
  | _, _ => 0%nat
  end.

(** Invariant of the loop on bursts [BL] of any sign and size: a burst
    that is not selectable is never touched, and [completed] counts the
    selectable ones that have run out. *)
Record loose_inv (n : nat) (BL : list Z) (st : state) : Prop := {
  loose_wf : well_formed n st;
  loose_length : length BL = n;
  loose_stuck : ∀ i b, BL !! i = Some b → ¬ selectable b →
                       remaining st !! i = Some b;
  loose_count :
    (completed st + pending BL (remaining st))%nat
    = length (filter (λ b, selectable b) BL)
}.

(** ** The state of the loop at a tick *)

(** The local variables at the start of iteration [k] in the run of
    [srtf_scheduling] on [processes]. *)
Definition state_at (processes : list proc) (k : nat) : outcome state :=
  ps ← sort_by_arrival (alias <$> processes);
  rem ← comprehension (λ p, getitem p "burst") ps;
  iterate k (length ps) (initial_state ps rem).

(** ** The statistics table *)

(** The row shown for a record: pid, arrival, burst, completion time,
    and the turnaround and waiting times computed from them. *)
Definition row_of (rec : proc) : string * Z * Z * Z * Z * Z :=
  let a := get_default rec "arrival" 0 in
  let b := get_default rec "burst" 0 in
  let ct := get_default rec "ct" 0 in
  (pid rec, a, b, ct, ct - a, ct - a - b).

(** ** Ticks given to a process *)

(** Number of ticks before [k] at which [sel] selects index [i]. *)
Fixpoint count_ticks (sel : nat → outcome (option nat)) (i k : nat) : nat :=
  match k with
  | O => 0
  | S k' =>
      (count_ticks sel i k' +
       match sel k' with
       | Ok (Some j) => if decide (j = i) then 1 else 0
       | _ => 0
       end)%nat
  end.

(** Number of ticks before [k] at which the process at position [i] of
    the sorted list executes, in the run on [processes]. *)
Definition ticks_of (processes : list proc) (i k : nat) : nat :=
  count_ticks (schedule_at processes) i k.


(** * Properties *)

(** ** The outcome monad *)

Lemma bind_Ok {A B : Type} (m : outcome A) (k : A → outcome B) (b : B) :
  m ≫= k = Ok b ↔ ∃ a, m = Ok a ∧ k a = Ok b.
Proof.
  destruct m; simpl; split; try (intros (? & ? & ?)); try discriminate; eauto.
  congruence.
Qed.

Lemma for_each_app {A B : Type} (f : A → B → outcome A) acc (l1 l2 : list B) :
  for_each f acc (l1 ++ l2) = for_each f acc l1 ≫= λ acc', for_each f acc' l2.
Proof.
  revert acc. induction l1 as [|x l1 IH]; intros acc; simpl; [done|].
  destruct (f acc x); simpl; auto.
Qed.

Lemma getitem_Ok (p : proc) (k : string) (v : Z) :
  getitem p k = Ok v ↔ fields p !! k = Some v.
Proof. unfold getitem. destruct (fields p !! k); split; congruence. Qed.

Lemma comprehension_Ok {A B : Type} (f : A → outcome B) (l : list A) (l' : list B) :
  comprehension f l = Ok l' ↔ Forall2 (λ x y, f x = Ok y) l l'.
Proof.
  revert l'. induction l as [|x l IH]; intros l'; simpl.
  - split; [intros [= <-]; constructor | by inversion 1].
  - rewrite bind_Ok. split.
    + intros (y & Hy & H). apply bind_Ok in H as (ys & Hys & [= <-]).
      constructor; [done | by apply IH].
    + inversion 1 as [|? y ? ys Hy Hys]; subst. exists y. split; [done|].
      apply bind_Ok. exists ys. split; [by apply IH | done].
Qed.

(** ** One tick of the simulation *)

(** The accumulator is kept at index [k]: the postcondition extends. *)

Ltac scan_keep Hpost Hcase Hk_run :=
  match type of Hpost with
  | match ?idx with _ => _ end =>
      destruct idx;
      [ destruct Hpost as (? & ? & ? & ? & ?);
        split; [lia|]; split; [done|]; split; [done|]; split; [|done]
      | destruct Hpost as (-> & ?); split; [done|] ];
      (let j := fresh "j" in let Hj := fresh "Hj" in let Hrj := fresh "Hrj" in
       intros j ? Hj Hrj; destruct (Hcase j Hj) as [?| ->]; [eauto|];
       apply Hk_run in Hrj; lia)
  end.

Lemma scan_prefix n st k :
  well_formed n st → (k ≤ n)%nat →
  ∃ acc, for_each (scan_at st) (None, sentinel) (seq 0 k) = Ok acc ∧
         scan_post st k acc.
Proof.
  intros Hwf. induction k as [|k IH]; intros Hk.
  - exists (None, sentinel). split; [done|]. split; [done|]. intros; lia.
  - destruct IH as ([idx m] & Hrun & Hpost); [lia|].
    rewrite seq_S, for_each_app, Hrun. simpl.
    destruct (lookup_lt_is_Some_2 (procs st) k) as [p Hp];
      [rewrite (wf_procs _ _ Hwf); lia|].
    destruct (lookup_lt_is_Some_2 (remaining st) k) as [r Hr];
      [rewrite (wf_remaining _ _ Hwf); lia|].
    assert (has_keys p) as [[a Ha] _].
    { eapply Forall_lookup_1; [apply Hwf | apply Hp]. }
    assert (∀ r', runnable st k r' ↔ r' = r ∧ a ≤ t st ∧ 0 < r) as Hk_run.
    { intros r'. split.
      - intros (?&?&?&?&?&?&?). simplify_eq. done.
      - intros (-> & ? & ?). by exists p, a. }
    unfold scan_at, index, getitem. rewrite Hp. simpl. rewrite Ha. simpl.
    unfold scan_post in Hpost. simpl in Hpost.
    assert (∀ j, (j < S k)%nat → (j < k)%nat ∨ j = k) as Hcase by lia.
    case_bool_decide as Hat; simpl; [rewrite Hr; simpl; case_bool_decide as Hpos;
      [case_bool_decide as Hlt|]|]; eexists; (split; [reflexivity|]);
      unfold scan_post; simpl.
    + (* a new minimum at index k *)
      split; [lia|]. split; [by apply Hk_run|].
      assert (∀ j r', (j < k)%nat → runnable st j r' → m ≤ r') as Hmin.
      { destruct idx; [apply Hpost|]. destruct Hpost as (-> & Hmin). done. }
      assert (m ≤ sentinel) as Hm.
      { destruct idx; [|apply Z.eq_le_incl, Hpost]. apply Z.lt_le_incl, Hpost. }
      split; [lia|]. split.
      * intros j r' Hj Hrj. destruct (Hcase j Hj) as [?| ->].
        -- specialize (Hmin j r' ltac:(done) Hrj). lia.
        -- apply Hk_run in Hrj. lia.
      * intros j r' Hj Hrj. specialize (Hmin j r' Hj Hrj). lia.
    + (* index k is runnable but does not improve on the minimum *)
      scan_keep Hpost Hcase Hk_run.
    + (* index k has completed *)
      scan_keep Hpost Hcase Hk_run.
    + (* index k has not arrived *)
      scan_keep Hpost Hcase Hk_run.
Qed.

Lemma scan_Ok n st :
  well_formed n st → ∃ acc, scan n st = Ok acc ∧ scan_post st n acc.
Proof. intros Hwf. by apply (scan_prefix n st n). Qed.

Lemma runnable_lt n st j r : well_formed n st → runnable st j r → (j < n)%nat.
Proof.
  intros Hwf (p & a & Hp & _). rewrite <- (wf_procs _ _ Hwf).
  by eapply lookup_lt_Some.
Qed.

Lemma complete_Ok p c a b :
  fields p !! "arrival" = Some a → fields p !! "burst" = Some b →
  complete p c = Ok (finished p c a b).
Proof.
  intros Ha Hb. unfold complete, finished, getitem, setitem. simpl.
  rewrite !lookup_insert_ne, Ha by done. simpl.
  rewrite lookup_insert_eq. simpl.
  rewrite !lookup_insert_ne, Hb by done. simpl.
  rewrite lookup_insert_eq. simpl.
  case_bool_decide; simpl.
  - rewrite insert_insert_eq. do 3 f_equal. lia.
  - do 3 f_equal. lia.
Qed.

Lemma finished_fields p c a b :
  fields p !! "arrival" = Some a → fields p !! "burst" = Some b →
  ∀ q, q = finished p c a b →
  pid q = pid p ∧
  fields q !! "arrival" = Some a ∧ fields q !! "burst" = Some b ∧
  fields q !! "ct" = Some c ∧ fields q !! "tat" = Some (c - a) ∧
  fields q !! "wt" = Some (Z.max 0 (c - a - b)).
Proof.
  intros Ha Hb q ->. unfold finished, setitem. simpl. by simplify_map_eq.
Qed.

Lemma loop_body_step n st :
  well_formed n st →
  ∃ acc st', scan n st = Ok acc ∧ loop_body n st = Ok st' ∧ step st acc.1 st'.
Proof.
  intros Hwf. destruct (scan_Ok n st Hwf) as ([idx m] & Hscan & Hpost).
  exists (idx, m). unfold loop_body. rewrite Hscan. simpl.
  unfold scan_post in Hpost. simpl in Hpost. destruct idx as [i|].
  - destruct Hpost as (Hi & (p & a & Hp & Ha & Hr & Hat & Hpos) & Hm & Hmin & Hfst).
    assert (has_keys p) as [_ [b Hb]].
    { eapply Forall_lookup_1; [apply Hwf | apply Hp]. }
    exists (run_state st i p a b m). split; [done|]. split.
    + unfold index. rewrite Hp, Hr. simpl.
      rewrite list_lookup_insert_eq by (by eapply lookup_lt_Some). simpl.
      unfold run_state.
      rewrite (bool_decide_ext (m - 1 = 0) (m = 1)) by lia.
      case_bool_decide; [|done]. by rewrite (complete_Ok _ _ a b).
    + econstructor; eauto. intros j r' Hj.
      apply (Hmin j r'); [by eapply runnable_lt | done].
  - destruct Hpost as (-> & Hmin). exists (idle_state st).
    split; [done|]. split; [done|]. constructor.
    intros j r Hj. apply Hmin with j; [|done]. by eapply runnable_lt.
Qed.

Lemma step_well_formed n st sel st' :
  well_formed n st → step st sel st' → well_formed n st'.
Proof.
  intros [Hp Hr Hk]. destruct 1 as [|i p a b r Hpi Ha Hb]; [by constructor|].
  constructor; simpl.
  - case_bool_decide; [|done]. by rewrite length_insert.
  - by rewrite length_insert.
  - case_bool_decide; [|done]. apply Forall_insert; [done|].
    destruct (finished_fields p (t st + 1) a b Ha Hb _ eq_refl) as (_ & ? & ? & _).
    by split.
Qed.

Lemma sumZ_insert l i (r r' : Z) :
  l !! i = Some r → sumZ (<[i := r']> l) = sumZ l - r + r'.
Proof.
  revert i. induction l as [|x l IH]; intros [|i] Hi; simplify_eq/=; [lia|].
  rewrite (IH i Hi). lia.
Qed.

Lemma count_zero_insert l i (r r' : Z) :
  l !! i = Some r → r ≠ 0 →
  count_zero (<[i := r']> l) =
  if bool_decide (r' = 0) then S (count_zero l) else count_zero l.
Proof.
  unfold count_zero. intros Hi Hr. revert i Hi.
  induction l as [|x l IH]; intros [|i] Hi; try discriminate.
  - injection Hi as ->. change (<[0%nat := r']> (r :: l)) with (r' :: l).
    rewrite !filter_cons. repeat case_decide; case_bool_decide; simpl; congruence.
  - change (<[S i := r']> (x :: l)) with (x :: <[i := r']> l).
    rewrite !filter_cons. specialize (IH i Hi). revert IH.
    repeat case_decide; case_bool_decide; simpl; congruence.
Qed.

Lemma count_zero_lt l :
  (count_zero l < length l)%nat → ∃ i r, l !! i = Some r ∧ r ≠ 0.
Proof.
  unfold count_zero. induction l as [|x l IH]; simpl; [lia|].
  rewrite filter_cons. case_decide as Hx; simpl; intros Hlt.
  - destruct IH as (i & r & ? & ?); [lia|]. by exists (S i), r.
  - by exists 0%nat, x.
Qed.

Lemma count_zero_all l i r :
  (length l ≤ count_zero l)%nat → l !! i = Some r → r = 0.
Proof.
  unfold count_zero. revert i.
  induction l as [|x l IH]; intros i; simpl; [done|].
  rewrite filter_cons. pose proof (length_filter (λ r, r = 0) l).
  case_decide as Hx; simpl; intros Hle; [|lia].
  destruct i as [|i]; simpl; [congruence|]. apply IH. lia.
Qed.

Lemma count_idle_snoc g s :
  count_idle (g ++ [s]) =
  if bool_decide (s = "Idle"%string) then S (count_idle g) else count_idle g.
Proof.
  unfold count_idle. rewrite list.filter_app, length_app, filter_cons, filter_nil.
  case_decide; case_bool_decide; simpl; try done; lia.
Qed.

(** ** The loop invariant *)

Lemma max_arrival_ge AL i a : AL !! i = Some a → a ≤ max_arrival AL.
Proof.
  unfold max_arrival. revert i.
  induction AL as [|x AL IH]; intros [|i] Hi; simplify_eq/=; [lia|].
  specialize (IH i Hi). lia.
Qed.

Lemma max_arrival_nonneg AL : 0 ≤ max_arrival AL.
Proof. unfold max_arrival. induction AL; simpl; lia. Qed.

Lemma count_zero_pos l : Forall (λ b, 0 < b) l → count_zero l = 0%nat.
Proof.
  unfold count_zero. induction 1 as [|b l Hb _ IH]; [done|].
  rewrite filter_cons. case_decide; [lia | done].
Qed.

Lemma sumZ_nonneg l : Forall (λ r, 0 ≤ r) l → 0 ≤ sumZ l.
Proof. induction 1; simpl; lia. Qed.

Lemma sumZ_pos l i r :
  Forall (λ r, 0 ≤ r) l → l !! i = Some r → 0 < r → 0 < sumZ l.
Proof.
  intros Hall. revert i. induction Hall as [|x l Hx Hl IH]; intros [|i] Hi Hr;
    simplify_eq/=.
  - pose proof (sumZ_nonneg l Hl). lia.
  - specialize (IH i Hi Hr). lia.
Qed.

Lemma iterate_S_r k n st :
  iterate (S k) n st = iterate k n st ≫= loop_body n.
Proof.
  revert st. induction k as [|k IH]; intros st.
  - simpl. by destruct (loop_body n st).
  - change (iterate (S (S k)) n st) with (loop_body n st ≫= iterate (S k) n).
    change (iterate (S k) n st) with (loop_body n st ≫= iterate k n).
    destruct (loop_body n st) as [st'| |]; simpl; [|done..]. apply IH.
Qed.

Section simulation.
Variables (ps0 : list proc) (AL BL : list Z).
Hypothesis HAL : Forall2 (λ p a, fields p !! "arrival" = Some a) ps0 AL.
Hypothesis HBL : Forall2 (λ p b, fields p !! "burst" = Some b) ps0 BL.
Hypothesis Hpos : Forall (λ b, 0 < b) BL.

Local Abbreviation n := (length ps0).
Local Abbreviation st0 := (initial_state ps0 BL).

Lemma job_lookup i :
  (i < n)%nat →
  ∃ p0 a b, ps0 !! i = Some p0 ∧ AL !! i = Some a ∧ BL !! i = Some b ∧
            fields p0 !! "arrival" = Some a ∧ fields p0 !! "burst" = Some b ∧
            0 < b.
Proof.
  intros Hi. destruct (lookup_lt_is_Some_2 ps0 i Hi) as [p0 Hp0].
  destruct (Forall2_lookup_l _ _ _ _ _ HAL Hp0) as (a & Ha & Hpa).
  destruct (Forall2_lookup_l _ _ _ _ _ HBL Hp0) as (b & Hb & Hpb).
  exists p0, a, b. repeat split; try done.
  by eapply (Forall_lookup_1 _ _ _ _ Hpos).
Qed.

Lemma inv_initial : inv ps0 AL BL 0 st0.
Proof.
  constructor; simpl; try done.
  - constructor; simpl; [done | symmetry; by eapply Forall2_length|].
    apply Forall_lookup. intros i p Hi.
    destruct (job_lookup i) as (p0 & a & b & ? & ? & ? & ? & ? & ?);
      [by eapply lookup_lt_Some|]. simplify_eq. by split.
  - symmetry. by apply count_zero_pos.
  - intros i p0 a b Hp0 Ha Hb. exists b. split; [done|].
    assert (0 < b) by (by eapply (Forall_lookup_1 _ _ _ _ Hpos)).
    unfold proc_inv. rewrite bool_decide_false by lia.
    repeat split; try lia; auto.
  - intros; lia.
  - intros _. unfold count_idle. simpl. lia.
  - intros _. pose proof (max_arrival_nonneg AL). lia.
Qed.

Lemma inv_step k st st' :
  inv ps0 AL BL k st → (completed st < n)%nat →
  loop_body n st = Ok st' → inv ps0 AL BL (S k) st'.
Proof.
  intros [Hreach Hwf Ht Hg Hc Hsum Hproc Htrace Hidle Hbound] Hlt Hbody.
  destruct (loop_body_step n st Hwf) as (acc & st'' & Hscan & Hbody' & Hstep).
  assert (st'' = st') as -> by congruence.
  assert (selection n st0 k = Ok acc.1) as Hsel.
  { unfold selection. rewrite Hreach. simpl. by rewrite Hscan. }
  assert (iterate (S k) n st0 = Ok st') as Hreach'.
  { rewrite iterate_S_r, Hreach. done. }
  pose proof (step_well_formed _ _ _ _ Hwf Hstep) as Hwf'.
  assert (∀ j sel, (j < k)%nat ∨ j = k → selection n st0 j = Ok sel →
                   (j < k)%nat ∨ (j = k ∧ sel = acc.1)) as Hsel_cases.
  { intros j sel [?| ->] Hj; [by left|]. right. split; congruence. }
  destruct Hstep as [Hnone | i p a b r Hp Ha Hb Hr Hat Hrpos Hrs Hmin Hfst].
  - (* an idle tick *)
    constructor; simpl; try done.
    + lia.
    + rewrite length_app. simpl. lia.
    + intros i p0 a b Hp0 Ha Hb.
      destruct (Hproc i p0 a b Hp0 Ha Hb) as (r & Hr & Hb1 & Hb2 & Hfin).
      exists r. split; [done|]. unfold proc_inv.
      split; [done|]. split; [lia|].
      case_bool_decide; [|done].
      destruct Hfin as (c & ? & ? & ? & ? & Hno).
      exists c. repeat split; try done; try lia.
      intros j Hj. destruct (decide (j = k)) as [->|]; [|apply Hno; lia].
      rewrite Hsel. done.
    + intros j sel Hj Hselj.
      destruct (Hsel_cases j sel) as [?|[-> ->]]; [lia | done | |].
      * rewrite lookup_app_l by lia. by apply Htrace.
      * simpl. rewrite <- Hg at 1.
        by rewrite list_lookup_middle.
    + intros Hno. specialize (Hidle Hno). rewrite count_idle_snoc.
      rewrite bool_decide_true by done. lia.
    + intros Hs. specialize (Hbound Hs).
      rewrite Hc, <- (wf_remaining _ _ Hwf) in Hlt.
      apply count_zero_lt in Hlt as (i & r & Hr & Hr0).
      destruct (job_lookup i) as (p0 & a & b & Hp0 & Ha & Hb & Hpa & Hpb & ?).
      { rewrite <- (wf_remaining _ _ Hwf). by eapply lookup_lt_Some. }
      destruct (Hproc i p0 a b Hp0 Ha Hb) as (r' & Hr' & Hb1 & Hb2 & Hfin).
      simplify_eq. rewrite bool_decide_false in Hfin by done.
      assert (b < sentinel) by (by eapply (Forall_lookup_1 _ _ _ _ Hs)).
      assert (¬ a ≤ t st) as Hna.
      { intros Hle. assert (runnable st i r) as Hrun.
        { exists p0, a. repeat split; try done; lia. }
        apply Hnone in Hrun. lia. }
      pose proof (max_arrival_ge _ _ _ Ha). lia.
  - (* a tick given to process [i] *)
    destruct (job_lookup i) as (p0 & a0 & b0 & Hp0 & Ha0 & Hb0 & Hpa & Hpb & ?).
    { rewrite <- (wf_procs _ _ Hwf). by eapply lookup_lt_Some. }
    destruct (Hproc i p0 a0 b0 Hp0 Ha0 Hb0) as (r0 & Hr0 & Hb1 & Hb2 & Hfin).
    assert (r0 = r) as -> by congruence.
    rewrite bool_decide_false in Hfin by lia.
    assert (p = p0) as -> by congruence.
    assert (a0 = a) as -> by congruence.
    assert (b0 = b) as -> by congruence.
    assert (t st + 1 = Z.of_nat (S k)) as Ht' by lia.
    constructor; simpl; try done.
    + rewrite length_app. simpl. lia.
    + rewrite (count_zero_insert _ _ r) by (done || lia).
      rewrite (bool_decide_ext (r - 1 = 0) (r = 1)) by lia.
      case_bool_decide; congruence.
    + rewrite (sumZ_insert _ _ r) by done. lia.
    + intros i' p' a' b' Hp' Ha' Hb'.
      destruct (decide (i' = i)) as [->|Hne].
      * assert (p' = p0) as -> by congruence.
      assert (a' = a) as -> by congruence.
      assert (b' = b) as -> by congruence.
      exists (r - 1). split.
      { apply list_lookup_insert_eq. by eapply lookup_lt_Some. }
      unfold proc_inv. simpl. split; [lia|]. split; [lia|].
      rewrite (bool_decide_ext (r - 1 = 0) (r = 1)) by lia.
      case_bool_decide as Hr1; [|done].
      exists k. split; [lia|]. split; [lia|]. split.
      { rewrite Ht'. apply list_lookup_insert_eq. by eapply lookup_lt_Some. }
      split; [done|]. intros; lia.
    * destruct (Hproc i' p' a' b' Hp' Ha' Hb') as (r' & Hr' & Hc1 & Hc2 & Hfin').
        exists r'. split; [by rewrite list_lookup_insert_ne|].
        unfold proc_inv. simpl. split; [done|]. split; [lia|].
        case_bool_decide.
        -- destruct Hfin' as (c & ? & ? & ? & ? & Hno).
           exists c. split; [done|]. split; [lia|]. split.
           { case_bool_decide; [|done]. by rewrite list_lookup_insert_ne. }
           split; [done|].
           intros j Hj. destruct (decide (j = k)) as [->|]; [|apply Hno; lia].
           rewrite Hsel. congruence.
        -- case_bool_decide; [|done]. by rewrite list_lookup_insert_ne.
    + intros j sel Hj Hselj.
      destruct (Hsel_cases j sel) as [?|[-> ->]]; [lia | done | |].
      * rewrite lookup_app_l by lia. by apply Htrace.
      * simpl. rewrite Hp0. simpl. rewrite <- Hg at 1.
        by rewrite list_lookup_middle.
    + intros Hno. specialize (Hidle Hno). rewrite count_idle_snoc.
      rewrite bool_decide_false
        by (by eapply (Forall_lookup_1 _ _ _ _ Hno)).
      rewrite (sumZ_insert _ _ r) by done. lia.
    + intros Hs. specialize (Hbound Hs).
      rewrite (sumZ_insert _ _ r) by done. lia.
Qed.

Lemma while_loop_inv fuel k st st' :
  inv ps0 AL BL k st → while_loop fuel n st = Ok st' →
  ∃ k', inv ps0 AL BL k' st' ∧ (n ≤ completed st')%nat.
Proof.
  revert k st. induction fuel as [|fuel IH]; intros k st Hinv; simpl;
    case_bool_decide as Hlt; try discriminate.
  - intros [= <-]. exists k. split; [done | lia].
  - intros (st1 & Hbody & Hloop)%bind_Ok.
    eapply IH; [|done]. by eapply inv_step.
  - intros [= <-]. exists k. split; [done | lia].
Qed.

Lemma incomplete_sum st k :
  inv ps0 AL BL k st → (completed st < n)%nat → 0 < sumZ (remaining st).
Proof.
  intros Hinv Hlt. pose proof (inv_wf _ _ _ _ _ Hinv) as Hwf.
  rewrite (inv_completed _ _ _ _ _ Hinv), <- (wf_remaining _ _ Hwf) in Hlt.
  apply count_zero_lt in Hlt as (i & r & Hr & Hr0).
  assert (Forall (λ r, 0 ≤ r) (remaining st)) as Hnonneg.
  { apply Forall_lookup. intros j r' Hj.
    destruct (job_lookup j) as (p0 & a & b & Hp0 & Ha & Hb & _).
    { rewrite <- (wf_remaining _ _ Hwf). by eapply lookup_lt_Some. }
    destruct (inv_proc _ _ _ _ _ Hinv j p0 a b Hp0 Ha Hb) as (r'' & ? & ? & _).
    simplify_eq. lia. }
  apply (sumZ_pos _ i r Hnonneg Hr).
  pose proof (Forall_lookup_1 _ _ _ _ Hnonneg Hr). simpl in *. lia.
Qed.

Lemma while_loop_terminates fuel k st :
  inv ps0 AL BL k st → Forall (λ b, b < sentinel) BL →
  sumZ BL + max_arrival AL - Z.of_nat k ≤ Z.of_nat fuel →
  ∃ st', while_loop fuel n st = Ok st'.
Proof.
  intros Hinv Hs. revert k st Hinv.
  induction fuel as [|fuel IH]; intros k st Hinv Hfuel; simpl;
    case_bool_decide as Hlt; eauto.
  - pose proof (incomplete_sum _ _ Hinv Hlt).
    pose proof (inv_bound _ _ _ _ _ Hinv Hs). lia.
  - destruct (loop_body_step n st (inv_wf _ _ _ _ _ Hinv))
      as (acc & st' & _ & Hbody & _).
    rewrite Hbody. simpl. apply (IH (S k)); [by eapply inv_step | lia].
Qed.

(** The state in which the loop stops. *)
Lemma inv_final k st i p0 a b :
  inv ps0 AL BL k st → (n ≤ completed st)%nat →
  ps0 !! i = Some p0 → AL !! i = Some a → BL !! i = Some b →
  ∃ c : nat,
    procs st !! i = Some (finished p0 (Z.of_nat (S c)) a b) ∧
    a + b ≤ Z.of_nat (S c) ∧ (S c ≤ length (gantt st))%nat ∧
    selection n st0 c = Ok (Some i) ∧
    ∀ j, (c < j < length (gantt st))%nat → selection n st0 j ≠ Ok (Some i).
Proof.
  intros Hinv Hdone Hp0 Ha Hb.
  destruct (inv_proc _ _ _ _ _ Hinv i p0 a b Hp0 Ha Hb) as (r & Hr & _ & _ & Hfin).
  assert (r = 0) as ->.
  { eapply count_zero_all; [|done].
    rewrite <- (inv_completed _ _ _ _ _ Hinv).
    by rewrite (wf_remaining _ _ (inv_wf _ _ _ _ _ Hinv)). }
  rewrite bool_decide_true in Hfin by done.
  rewrite (inv_gantt _ _ _ _ _ Hinv).
  destruct Hfin as (c & ? & ? & ? & ? & ?). by exists c.
Qed.

Lemma inv_final_sum k st :
  inv ps0 AL BL k st → (n ≤ completed st)%nat → sumZ (remaining st) = 0.
Proof.
  intros Hinv Hdone.
  assert (∀ i r, remaining st !! i = Some r → r = 0) as Hall.
  { intros i r Hr. eapply count_zero_all; [|done].
    rewrite <- (inv_completed _ _ _ _ _ Hinv).
    by rewrite (wf_remaining _ _ (inv_wf _ _ _ _ _ Hinv)). }
  revert Hall. generalize (remaining st).
  induction l as [|x l IH]; intros Hall; simpl; [done|].
  rewrite (Hall 0%nat x eq_refl), IH; [done|].
  intros i r Hi. apply (Hall (S i)), Hi.
Qed.
End simulation.

(** ** The stable sort by arrival *)

Lemma insert_by_key_perm x l : insert_by_key x l ≡ₚ x :: l.
Proof.
  induction l as [|y l IH]; simpl; [done|].
  case_bool_decide; [done|]. rewrite IH. apply Permutation_swap.
Qed.

Lemma sort_decorated_perm l : sort_decorated l ≡ₚ l.
Proof.
  induction l as [|x l IH]; simpl; [done|].
  by rewrite insert_by_key_perm, IH.
Qed.

Lemma insert_by_key_sorted x l :
  StronglySorted (λ y z : Z * proc, y.1 ≤ z.1) l →
  StronglySorted (λ y z : Z * proc, y.1 ≤ z.1) (insert_by_key x l).
Proof.
  induction 1 as [|y l Hl IH Hy]; simpl.
  - repeat constructor.
  - case_bool_decide as Hxy.
    + constructor; [by constructor|]. constructor; [done|].
      eapply Forall_impl; [done|]. simpl. intros; lia.
    + constructor; [done|]. rewrite insert_by_key_perm.
      constructor; [lia | done].
Qed.

Lemma sort_decorated_sorted l :
  StronglySorted (λ y z : Z * proc, y.1 ≤ z.1) (sort_decorated l).
Proof.
  induction l; simpl; [constructor | by apply insert_by_key_sorted].
Qed.

(** Stability: elements with the same key keep their relative order. *)
Lemma insert_by_key_stable (a : Z) x l :
  filter (λ y : Z * proc, y.1 = a) (insert_by_key x l)
  = filter (λ y : Z * proc, y.1 = a) (x :: l).
Proof.
  induction l as [|y l IH]; simpl; [done|].
  case_bool_decide as Hxy; [done|].
  rewrite (filter_cons _ y), IH, !filter_cons.
  repeat case_decide; try done; lia.
Qed.

Lemma sort_decorated_stable (a : Z) l :
  filter (λ y : Z * proc, y.1 = a) (sort_decorated l)
  = filter (λ y : Z * proc, y.1 = a) l.
Proof.
  induction l as [|x l IH]; simpl; [done|].
  by rewrite insert_by_key_stable, !filter_cons, IH.
Qed.

Lemma decorate_Ok ps keyed :
  comprehension decorate ps = Ok keyed →
  snd <$> keyed = ps ∧ Forall (λ x : Z * proc, arrives_at x.1 x.2) keyed.
Proof.
  rewrite comprehension_Ok. induction 1 as [|p [a q] ps keyed Hp _ [IH1 IH2]].
  - by split.
  - unfold decorate in Hp. apply bind_Ok in Hp as (a' & Ha & [= <- <-]).
    apply getitem_Ok in Ha. split; [by rewrite fmap_cons, IH1|].
    by constructor.
Qed.

Lemma filter_decorated (a : Z) l :
  Forall (λ x : Z * proc, arrives_at x.1 x.2) l →
  filter (arrives_at a) (snd <$> l) = snd <$> filter (λ y : Z * proc, y.1 = a) l.
Proof.
  induction 1 as [|[b p] l Hp _ IH]; [done|].
  rewrite fmap_cons, !filter_cons, IH. simpl in *. unfold arrives_at in *.
  repeat case_decide; try done; congruence.
Qed.

Lemma sort_by_arrival_Ok ps ps0 :
  sort_by_arrival ps = Ok ps0 →
  ps0 ≡ₚ ps ∧ StronglySorted le_arrival ps0 ∧
  (∀ a, filter (arrives_at a) ps0 = filter (arrives_at a) ps) ∧
  ∃ AL, Forall2 (λ p a, fields p !! "arrival" = Some a) ps0 AL.
Proof.
  unfold sort_by_arrival. intros (keyed & Hk & [= <-])%bind_Ok.
  destruct (decorate_Ok _ _ Hk) as [Hsnd Hkeys].
  assert (Forall (λ x : Z * proc, arrives_at x.1 x.2) (sort_decorated keyed))
    as Hkeys' by (by rewrite sort_decorated_perm).
  split; [by rewrite sort_decorated_perm, Hsnd|]. split; [|split].
  - pose proof (sort_decorated_sorted keyed) as Hs. revert Hs Hkeys'.
    generalize (sort_decorated keyed). intros l.
    induction 1 as [|[a p] l Hl IH Hall]; intros Hk'; [constructor|].
    apply Forall_cons in Hk' as [Hp Hk'].
    rewrite fmap_cons. constructor; [by apply IH|].
    apply Forall_fmap, Forall_lookup. intros i [b q] Hi.
    pose proof (Forall_lookup_1 _ _ _ _ Hall Hi) as Hab.
    pose proof (Forall_lookup_1 _ _ _ _ Hk' Hi) as Hq.
    unfold le_arrival, arrives_at in *. simpl in *. by rewrite Hp, Hq.
  - intros a. rewrite !filter_decorated, sort_decorated_stable by done.
    rewrite <- filter_decorated by done. by rewrite Hsnd.
  - exists (fst <$> sort_decorated keyed).
    apply Forall2_fmap, Forall2_same_length_lookup. split; [done|].
    intros i x y Hx Hy. assert (x = y) as -> by congruence.
    apply (Forall_lookup_1 _ _ _ _ Hkeys' Hx).
Qed.

Lemma sort_by_arrival_total ps :
  Forall (λ p, is_Some (fields p !! "arrival")) ps →
  ∃ ps0, sort_by_arrival ps = Ok ps0.
Proof.
  intros Hall. unfold sort_by_arrival.
  assert (∃ keyed, comprehension decorate ps = Ok keyed) as [keyed ->].
  { induction Hall as [|p ps [a Ha] _ [keyed IH]]; [by eexists|].
    assert (decorate p = Ok (a, p)) as Hd.
    { unfold decorate, getitem. by rewrite Ha. }
    simpl. rewrite Hd. simpl. rewrite IH. by eexists. }
  by eexists.
Qed.

Lemma bursts_total ps :
  Forall (λ p, is_Some (fields p !! "burst")) ps →
  ∃ BL, comprehension (λ p, getitem p "burst") ps = Ok BL.
Proof.
  induction 1 as [|p ps [b Hb] _ [BL IH]]; [by eexists|].
  assert (getitem p "burst" = Ok b) as Hg by (by apply getitem_Ok).
  simpl. rewrite Hg. simpl. rewrite IH. by eexists.
Qed.

Lemma bursts_Ok ps BL :
  comprehension (λ p, getitem p "burst") ps = Ok BL ↔
  Forall2 (λ p b, fields p !! "burst" = Some b) ps BL.
Proof.
  rewrite comprehension_Ok.
  split; intros H; eapply Forall2_impl; try apply H; intros p b;
    by rewrite getitem_Ok.
Qed.

(** ** The whole call *)

Lemma sum_get_perm k ps ps' : ps ≡ₚ ps' → sum_get k ps = sum_get k ps'.
Proof. unfold sum_get. induction 1; simpl; lia. Qed.

Lemma max_arrival_perm l l' : l ≡ₚ l' → max_arrival l = max_arrival l'.
Proof. unfold max_arrival. induction 1; simpl; lia. Qed.

Lemma bursts_sum ps0 BL :
  Forall2 (λ p b, fields p !! "burst" = Some b) ps0 BL →
  sumZ BL = sum_get "burst" ps0.
Proof.
  induction 1 as [|p b ps0 BL Hb _ IH]; simpl; [done|].
  unfold get_default. rewrite Hb. simpl. lia.
Qed.

Lemma arrivals_list ps0 AL :
  Forall2 (λ p a, fields p !! "arrival" = Some a) ps0 AL →
  AL = (λ p, get_default p "arrival" 0) <$> ps0.
Proof.
  induction 1 as [|p a ps0 AL Ha _ IH]; [done|].
  rewrite fmap_cons, <- IH. unfold get_default. by rewrite Ha.
Qed.

Lemma valid_keys p :
  valid p → ∃ a b, fields (alias p) !! "arrival" = Some a ∧
                   fields (alias p) !! "burst" = Some b ∧ 0 ≤ a ∧ 0 < b.
Proof.
  unfold valid, arrival_of, burst_of.
  destruct (fields (alias p) !! "arrival") as [a|]; [|done].
  destruct (fields (alias p) !! "burst") as [b|]; [|done].
  intros [?%bool_decide_unpack ?%bool_decide_unpack]%andb_True. by exists a, b.
Qed.

Lemma below_sentinel_key p b :
  below_sentinel p → fields (alias p) !! "burst" = Some b → b < sentinel.
Proof.
  unfold below_sentinel, burst_of. intros H Hb. rewrite Hb in H.
  by apply bool_decide_unpack in H.
Qed.

(** What the lines before the loop compute on a valid input. *)
Lemma prelude_valid ps :
  Forall valid ps →
  ∃ ps0 AL BL,
    sort_by_arrival (alias <$> ps) = Ok ps0 ∧
    comprehension (λ p, getitem p "burst") ps0 = Ok BL ∧
    Forall2 (λ p a, fields p !! "arrival" = Some a) ps0 AL ∧
    Forall2 (λ p b, fields p !! "burst" = Some b) ps0 BL ∧
    Forall (λ b, 0 < b) BL ∧
    sumZ BL = total_burst ps ∧ max_arrival AL = latest_arrival ps ∧
    (Forall below_sentinel ps → Forall (λ b, b < sentinel) BL).
Proof.
  intros Hvalid.
  destruct (sort_by_arrival_total (alias <$> ps)) as [ps0 Hsort].
  { apply Forall_fmap. eapply Forall_impl; [done|]. simpl.
    intros p (a & b & Ha & _)%valid_keys. by exists a. }
  destruct (sort_by_arrival_Ok _ _ Hsort) as (Hperm & _ & _ & AL & HAL).
  destruct (bursts_total ps0) as [BL HBL].
  { rewrite Hperm. apply Forall_fmap. eapply Forall_impl; [done|]. simpl.
    intros p (a & b & _ & Hb & _)%valid_keys. by exists b. }
  pose proof HBL as HBL'. apply bursts_Ok in HBL'.
  exists ps0, AL, BL. repeat split; try done.
  - apply Forall_lookup. intros i b Hb.
    destruct (Forall2_lookup_r _ _ _ _ _ HBL' Hb) as (p & Hp & Hpb).
    apply list_elem_of_lookup_2 in Hp. rewrite Hperm in Hp.
    apply list_elem_of_fmap in Hp as (q & -> & Hq).
    apply (proj1 (Forall_forall _ _) Hvalid), valid_keys in Hq
      as (a' & b' & _ & Hb' & _ & ?). congruence.
  - rewrite (bursts_sum _ _ HBL'). unfold total_burst. by apply sum_get_perm.
  - rewrite (arrivals_list _ _ HAL). unfold latest_arrival.
    change (λ p, get_default (alias p) "arrival" 0)
      with ((λ p, get_default p "arrival" 0) ∘ alias).
    rewrite (list_fmap_compose alias). apply max_arrival_perm.
    by apply fmap_Permutation.
  - intros Hs. apply Forall_lookup. intros i b Hb.
    destruct (Forall2_lookup_r _ _ _ _ _ HBL' Hb) as (p & Hp & Hpb).
    apply list_elem_of_lookup_2 in Hp. rewrite Hperm in Hp.
    apply list_elem_of_fmap in Hp as (q & -> & Hq).
    apply (proj1 (Forall_forall _ _) Hs) in Hq.
    by eapply below_sentinel_key.
Qed.

(** A returned result is the state in which the loop stops. *)
Lemma srtf_sound fuel p ps recs aw at' g :
  Forall valid (p :: ps) →
  srtf_scheduling fuel (p :: ps) = Ok (recs, aw, at', g) →
  ∃ ps0 AL BL k st,
    sort_by_arrival (alias <$> p :: ps) = Ok ps0 ∧
    comprehension (λ p, getitem p "burst") ps0 = Ok BL ∧
    Forall2 (λ p a, fields p !! "arrival" = Some a) ps0 AL ∧
    Forall2 (λ p b, fields p !! "burst" = Some b) ps0 BL ∧
    Forall (λ b, 0 < b) BL ∧
    (Forall below_sentinel (p :: ps) → Forall (λ b, b < sentinel) BL) ∧
    sumZ BL = total_burst (p :: ps) ∧
    max_arrival AL = latest_arrival (p :: ps) ∧
    inv ps0 AL BL k st ∧ (length ps0 ≤ completed st)%nat ∧
    recs = procs st ∧ g = gantt st ∧
    aw = truediv (sum_get "wt" recs) (length ps0) ∧
    at' = truediv (sum_get "tat" recs) (length ps0).
Proof.
  intros Hvalid Hrun.
  destruct (prelude_valid _ Hvalid)
    as (ps0 & AL & BL & Hsort & Hbursts & HAL & HBL & Hpos & Hsum & Hmax & Hlt).
  unfold srtf_scheduling in Hrun. rewrite Hsort in Hrun. simpl in Hrun.
  rewrite Hbursts in Hrun. simpl in Hrun.
  apply bind_Ok in Hrun as (st & Hloop & [= <- <- <- <-]).
  destruct (while_loop_inv ps0 AL BL HAL HBL Hpos fuel 0 _ st
              (inv_initial ps0 AL BL HAL HBL Hpos) Hloop) as (k & Hinv & Hdone).
  exists ps0, AL, BL, k, st. split_and!; done.
Qed.

(** The call returns when every burst is below the sentinel. *)
Lemma srtf_terminates fuel ps :
  Forall valid ps → Forall below_sentinel ps →
  total_burst ps + latest_arrival ps ≤ Z.of_nat fuel →
  ∃ res, srtf_scheduling fuel ps = Ok res.
Proof.
  intros Hvalid Hs Hfuel. destruct ps as [|p ps]; [by eexists|].
  destruct (prelude_valid _ Hvalid)
    as (ps0 & AL & BL & Hsort & Hbursts & HAL & HBL & Hpos & Hsum & Hmax & Hlt).
  unfold srtf_scheduling. rewrite Hsort. simpl. rewrite Hbursts. simpl.
  destruct (while_loop_terminates ps0 AL BL HAL HBL Hpos fuel 0
              (initial_state ps0 BL)) as [st ->];
    [by apply inv_initial | by apply Hlt | lia |].
  by eexists.
Qed.

Lemma srtf_returns ps :
  Forall valid ps → Forall below_sentinel ps →
  ∃ res, srtf_scheduling (enough_fuel ps) ps = Ok res.
Proof. intros Hv Hs. apply srtf_terminates; [done..|]. unfold enough_fuel. lia. Qed.

Lemma alias_step_pid new old p : pid (alias_step new old p) = pid p.
Proof. unfold alias_step. by repeat case_match. Qed.

Lemma alias_pid p : pid (alias p) = pid p.
Proof. unfold alias. by rewrite !alias_step_pid. Qed.

Lemma while_loop_fuel fuel extra n st st' :
  while_loop fuel n st = Ok st' → while_loop (fuel + extra) n st = Ok st'.
Proof.
  revert st. induction fuel as [|fuel IH]; intros st; simpl.
  - case_bool_decide as Hlt; [done|]. intros [= <-].
    destruct extra; simpl; by rewrite bool_decide_false.
  - case_bool_decide; [|done].
    intros (st1 & -> & Hloop)%bind_Ok. simpl. by apply IH.
Qed.

Lemma srtf_fuel fuel extra ps res :
  srtf_scheduling fuel ps = Ok res → srtf_scheduling (fuel + extra) ps = Ok res.
Proof.
  destruct ps as [|p ps]; [done|]. unfold srtf_scheduling. cbv zeta.
  intros (ps0 & Hsort & (BL & HBL & (st & Hloop & <-)%bind_Ok)%bind_Ok)%bind_Ok.
  rewrite Hsort. simpl. rewrite HBL. simpl.
  by rewrite (while_loop_fuel _ _ _ _ _ Hloop).
Qed.

(** A state in which every unfinished burst has reached the sentinel
    idles for ever. *)
Lemma stuck_diverges fuel n st :
  well_formed n st → (completed st < n)%nat →
  Forall (λ r, sentinel ≤ r) (remaining st) →
  while_loop fuel n st = OutOfFuel.
Proof.
  revert st. induction fuel as [|fuel IH]; intros st Hwf Hlt Hstuck; simpl;
    rewrite bool_decide_true by done; [done|].
  destruct (loop_body_step n st Hwf) as (acc & st' & _ & -> & Hstep). simpl.
  destruct Hstep as [_ | i p a b r _ _ _ Hr _ _ Hrs _ _].
  - apply IH; [by constructor; apply Hwf | done | done].
  - pose proof (Forall_lookup_1 _ _ _ _ Hstuck Hr). simpl in *. lia.
Qed.

(** ** Returned results *)

Lemma srtf_unfold fuel p ps ps0 BL :
  sort_by_arrival (alias <$> p :: ps) = Ok ps0 →
  comprehension (λ p, getitem p "burst") ps0 = Ok BL →
  srtf_scheduling fuel (p :: ps) =
  st ← while_loop fuel (length ps0) (initial_state ps0 BL);
  Ok (procs st, truediv (sum_get "wt" (procs st)) (length ps0),
      truediv (sum_get "tat" (procs st)) (length ps0), gantt st).
Proof. intros Hsort HBL. unfold srtf_scheduling. by rewrite Hsort; simpl; rewrite HBL. Qed.

(** The scan selects the first index, in the order of the sorted list,
    among the runnable processes with the least remaining burst, when
    that burst is below the sentinel. *)
Lemma scan_selects_first_minimum n st i r :
  well_formed n st → runnable st i r → r < sentinel →
  (∀ j r', runnable st j r' → r ≤ r') →
  (∀ j r', (j < i)%nat → runnable st j r' → r' ≠ r) →
  scan n st = Ok (Some i, r).
Proof.
  intros Hwf Hi Hr Hmin Hfirst.
  destruct (scan_Ok n st Hwf) as ([idx m] & -> & Hpost).
  unfold scan_post in Hpost. simpl in Hpost. destruct idx as [i'|].
  - destruct Hpost as (_ & Hi' & _ & Hmin' & Hfirst').
    pose proof (Hmin _ _ Hi'). pose proof (Hmin' i r (runnable_lt _ _ _ _ Hwf Hi) Hi).
    assert (m = r) as -> by lia.
    destruct (lt_eq_lt_dec i i') as [[Hlt| ->]|Hlt]; [|done|].
    + specialize (Hfirst' i r Hlt Hi). lia.
    + by destruct (Hfirst i' r Hlt Hi').
  - destruct Hpost as [_ Hnone].
    specialize (Hnone i r (runnable_lt _ _ _ _ Hwf Hi) Hi). lia.
Qed.

(** Scenario 1: a single process. *)
Lemma single_process_scenario (extra : nat) :
  srtf_scheduling (5 + extra) [descriptor "P1" 0 5]
  = Ok ([record "P1" 0 5 5 5 0], truediv 0 1, truediv 5 1,
        ["P1"; "P1"; "P1"; "P1"; "P1"]%string).
Proof. apply srtf_fuel. vm_compute. reflexivity. Qed.

(** Scenario 3: the CPU idles until the only process arrives. *)
Lemma idle_gap_scenario (extra : nat) :
  srtf_scheduling (5 + extra) [descriptor "P1" 3 2]
  = Ok ([record "P1" 3 2 5 2 0], truediv 0 1, truediv 2 1,
        ["Idle"; "Idle"; "Idle"; "P1"; "P1"]%string).
Proof. apply srtf_fuel. vm_compute. reflexivity. Qed.

(** Scenario 4: equal arrival and burst, P1 given first. *)
Lemma tie_break_scenario (extra : nat) :
  srtf_scheduling (6 + extra) [descriptor "P1" 0 3; descriptor "P2" 0 3]
  = Ok ([record "P1" 0 3 3 3 0; record "P2" 0 3 6 6 3],
        truediv 3 2, truediv 9 2,
        ["P1"; "P1"; "P1"; "P2"; "P2"; "P2"]%string).
Proof. apply srtf_fuel. vm_compute. reflexivity. Qed.

(** The records of a returned result, position by position. *)
Lemma srtf_records fuel p ps recs aw at' g :
  Forall valid (p :: ps) →
  srtf_scheduling fuel (p :: ps) = Ok (recs, aw, at', g) →
  ∃ ps0,
    sort_by_arrival (alias <$> p :: ps) = Ok ps0 ∧
    length recs = length ps0 ∧
    ∀ i rec, recs !! i = Some rec →
      ∃ p0 a b (c : nat),
        ps0 !! i = Some p0 ∧
        fields p0 !! "arrival" = Some a ∧ fields p0 !! "burst" = Some b ∧
        0 ≤ a ∧ 0 < b ∧
        rec = finished p0 (Z.of_nat (S c)) a b ∧
        a + b ≤ Z.of_nat (S c) ∧ (S c ≤ length g)%nat ∧
        g !! c = Some (pid rec) ∧
        schedule_at (p :: ps) c = Ok (Some i) ∧
        ∀ j, (c < j < length g)%nat → schedule_at (p :: ps) j ≠ Ok (Some i).
Proof.
  intros Hvalid Hrun.
  destruct (srtf_sound _ _ _ _ _ _ _ Hvalid Hrun)
    as (ps0 & AL & BL & k & st & Hsort & Hbursts & HAL & HBL & Hpos & _ & _ & _ &
        Hinv & Hdone & -> & -> & _).
  assert (∀ j, schedule_at (p :: ps) j
               = selection (length ps0) (initial_state ps0 BL) j) as Hsched.
  { intros j. unfold schedule_at. rewrite Hsort. simpl. by rewrite Hbursts. }
  pose proof (inv_wf _ _ _ _ _ Hinv) as Hwf.
  exists ps0. split; [done|]. split; [apply Hwf|].
  intros i rec Hrec.
  destruct (job_lookup ps0 AL BL HAL HBL Hpos i)
    as (p0 & a & b & Hp0 & Ha & Hb & Hpa & Hpb & Hbpos).
  { rewrite <- (wf_procs _ _ Hwf). by eapply lookup_lt_Some. }
  destruct (inv_final ps0 AL BL k st i p0 a b Hinv Hdone Hp0 Ha Hb)
    as (c & Hfin & Hct & Hc & Hsel & Hlast).
  assert (rec = finished p0 (Z.of_nat (S c)) a b) as -> by congruence.
  exists p0, a, b, c. split_and!; try done.
  - apply list_elem_of_lookup_2 in Hp0.
    destruct (sort_by_arrival_Ok _ _ Hsort) as (Hperm & _).
    rewrite Hperm in Hp0. apply list_elem_of_fmap in Hp0 as (q & -> & Hq).
    apply (proj1 (Forall_forall _ _) Hvalid), valid_keys in Hq
      as (a' & b' & Ha' & _ & ? & _). congruence.
  - rewrite (inv_trace _ _ _ _ _ Hinv c (Some i)); [|by rewrite <- (inv_gantt _ _ _ _ _ Hinv)|done].
    simpl. by rewrite Hp0.
  - by rewrite Hsched.
  - intros j Hj. rewrite Hsched. by apply Hlast.
Qed.

(** With every burst below the sentinel the trace has at most (sum of
    bursts + latest arrival) entries. *)
Lemma srtf_trace_bound fuel ps recs aw at' g :
  Forall valid ps → Forall below_sentinel ps →
  srtf_scheduling fuel ps = Ok (recs, aw, at', g) →
  Z.of_nat (length g) ≤ total_burst ps + latest_arrival ps.
Proof.
  intros Hvalid Hs Hrun. destruct ps as [|p ps].
  { injection Hrun as <- <- <- <-. unfold total_burst, latest_arrival. simpl. lia. }
  destruct (srtf_sound _ _ _ _ _ _ _ Hvalid Hrun)
    as (ps0 & AL & BL & k & st & _ & _ & HAL & HBL & Hpos & Hlt & Hsum & Hmax &
        Hinv & Hdone & _ & -> & _).
  pose proof (inv_bound _ _ _ _ _ Hinv (Hlt Hs)) as Hb.
  rewrite (inv_final_sum ps0 AL BL k st Hinv Hdone) in Hb.
  rewrite (inv_gantt _ _ _ _ _ Hinv). lia.
Qed.

Lemma StronglySorted_Forall2 {A B : Type} (R : relation A) (R' : relation B)
    (Q : A → B → Prop) l l' :
  (∀ x y x' y', R x y → Q x x' → Q y y' → R' x' y') →
  Forall2 Q l l' → StronglySorted R l → StronglySorted R' l'.
Proof.
  intros HR. induction 1 as [|x x' l l' Hx Hl IH]; [constructor|].
  intros [Hs Hall]%StronglySorted_inv. constructor; [by apply IH|].
  apply Forall_lookup. intros i y' Hy'.
  destruct (Forall2_lookup_r _ _ _ _ _ Hl Hy') as (y & Hy & Hyy).
  eapply HR; [|done..]. by eapply (Forall_lookup_1 _ _ _ _ Hall).
Qed.

(** ** build_segments *)

Section segments_facts.
Context {L : Type} `{EqDecision L}.
Implicit Types (l : list L) (segs : list (L * nat * nat)).

Lemma build_loop_acc l i segs cur start len :
  build_loop l i segs cur start len = segs ++ build_loop l i [] cur start len.
Proof.
  revert i segs cur start len.
  induction l as [|x l IH]; intros i segs cur start len; simpl; [done|].
  case_decide; [apply IH|].
  rewrite (IH _ (segs ++ _)), (IH _ [_]). by rewrite <- app_assoc.
Qed.

Lemma expand_cons (s : L * nat * nat) segs :
  expand (s :: segs) = replicate s.2 s.1.1 ++ expand segs.
Proof. done. Qed.

Lemma build_loop_spec l i cur start len :
  i = (start + len)%nat → (0 < len)%nat →
  expand (build_loop l i [] cur start len) = replicate len cur ++ l ∧
  chained start (build_loop l i [] cur start len) ∧
  ∃ s rest, build_loop l i [] cur start len = s :: rest ∧ s.1.1 = cur.
Proof.
  revert i cur start len.
  induction l as [|x l IH]; intros i cur start len Hi Hlen; simpl.
  - split; [by rewrite expand_cons|]. split; [done|]. by eexists _, _.
  - case_decide as Hx.
    + subst x. destruct (IH (S i) cur start (S len)) as (He & Hc & Hh); [lia..|].
      split; [|done]. rewrite He.
      change (replicate (S len) cur ++ l) with ((cur :: replicate len cur) ++ l).
      by rewrite replicate_cons_app, <- app_assoc.
    + rewrite build_loop_acc. simpl.
      destruct (IH (S i) x i 1%nat) as (He & Hc & s & rest & Hs & Hsx); [lia..|].
      split; [by rewrite expand_cons, He|]. split; [|by eexists _, _].
      simpl. split; [done|]. split; [done|]. rewrite Hs in Hc |- *.
      split; [congruence|]. by rewrite <- Hi.
Qed.

Lemma chained_lookup from segs i (s s' : L * nat * nat) :
  chained from segs → segs !! i = Some s → segs !! S i = Some s' →
  (s.1.2 + s.2)%nat = s'.1.2 ∧ s.1.1 ≠ s'.1.1.
Proof.
  revert from i. induction segs as [|s0 segs IH]; intros from i; [done|].
  intros (Hs0 & _ & Hne & Hc). destruct i as [|i]; simpl.
  - intros [= ->]. destruct segs as [|s1 segs]; [done|]. intros [= ->].
    destruct Hc as (-> & _). by rewrite Hs0.
  - intros Hi Hi'. by apply (IH _ i Hc).
Qed.

Lemma chained_bounds from segs :
  chained from segs →
  Forall (λ s : L * nat * nat, (from ≤ s.1.2)%nat ∧ (0 < s.2)%nat) segs ∧
  StronglySorted (λ s s' : L * nat * nat, (s.1.2 < s'.1.2)%nat) segs.
Proof.
  revert from. induction segs as [|s segs IH]; intros from; simpl.
  - intros _. split; constructor.
  - intros (Hs & Hlen & _ & Hc). destruct (IH _ Hc) as [Hb Hsorted].
    split; constructor; try done; try lia.
    + eapply Forall_impl; [done|]. simpl. intros; lia.
    + eapply Forall_impl; [done|]. simpl. intros; lia.
Qed.
End segments_facts.

(** ** Alternate spellings of the fields *)

Lemma fields_erase p k : core_key k → fields (erase p) !! k = fields p !! k.
Proof. intros [? ?]. unfold erase. simpl. by rewrite !lookup_delete_ne. Qed.

Lemma getitem_erase p k : core_key k → getitem (erase p) k = getitem p k.
Proof. intros Hk. unfold getitem. by rewrite fields_erase. Qed.

Lemma setitem_erase p k v :
  core_key k → setitem (erase p) k v = erase (setitem p k v).
Proof.
  intros [? ?]. unfold setitem, erase. simpl. f_equal.
  by rewrite !delete_insert_ne.
Qed.

Lemma index_erase l i : index (erase <$> l) i = erase <$> index l i.
Proof. unfold index. rewrite list_lookup_fmap. by destruct (l !! i). Qed.

Lemma fmap_bind {A B C : Type} (f : B → C) (m : outcome A) (k : A → outcome B) :
  f <$> (m ≫= k) = m ≫= λ a, f <$> k a.
Proof. by destruct m. Qed.

Lemma bind_fmap {A B C : Type} (f : A → B) (m : outcome A) (k : B → outcome C) :
  (f <$> m) ≫= k = m ≫= λ a, k (f a).
Proof. by destruct m. Qed.

Lemma bind_ext {A B : Type} (m : outcome A) (k k' : A → outcome B) :
  (∀ a, k a = k' a) → m ≫= k = m ≫= k'.
Proof. intros Hk. destruct m; simpl; auto. Qed.

Lemma for_each_ext {A B : Type} (f f' : A → B → outcome A) acc l :
  (∀ a b, f a b = f' a b) → for_each f acc l = for_each f' acc l.
Proof.
  intros Hf. revert acc. induction l as [|x l IH]; intros acc; simpl; [done|].
  rewrite Hf. by apply bind_ext.
Qed.

Lemma scan_erase n st : scan n (erase_state st) = scan n st.
Proof.
  unfold scan. apply for_each_ext. intros acc i. unfold scan_at. simpl.
  rewrite index_erase, bind_fmap. apply bind_ext. intros p.
  by rewrite getitem_erase.
Qed.

Lemma complete_erase p c : complete (erase p) c = erase <$> complete p c.
Proof.
  unfold complete.
  rewrite ?setitem_erase, ?getitem_erase by done.
  rewrite fmap_bind. apply bind_ext. intros a.
  rewrite ?setitem_erase, ?getitem_erase by done.
  rewrite fmap_bind. apply bind_ext. intros tat.
  rewrite ?setitem_erase, ?getitem_erase by done.
  rewrite fmap_bind. apply bind_ext. intros b.
  rewrite ?setitem_erase, ?getitem_erase by done.
  rewrite fmap_bind. apply bind_ext. intros wt.
  case_bool_decide; [|done]. by rewrite ?setitem_erase.
Qed.

Lemma loop_body_erase n st :
  loop_body n (erase_state st) = erase_state <$> loop_body n st.
Proof.
  unfold loop_body. rewrite scan_erase, fmap_bind. apply bind_ext.
  intros [[idx|] m]; simpl; [|done].
  rewrite index_erase, bind_fmap, fmap_bind. apply bind_ext. intros p.
  rewrite fmap_bind. apply bind_ext. intros r.
  rewrite fmap_bind. apply bind_ext. intros r'.
  case_bool_decide; [|done].
  rewrite complete_erase, bind_fmap, fmap_bind. apply bind_ext. intros p'.
  unfold erase_state. simpl. by rewrite list_fmap_insert.
Qed.

Lemma while_loop_erase fuel n st :
  while_loop fuel n (erase_state st) = erase_state <$> while_loop fuel n st.
Proof.
  revert st. induction fuel as [|fuel IH]; intros st; simpl;
    case_bool_decide; try done.
  rewrite loop_body_erase, bind_fmap, fmap_bind. by apply bind_ext.
Qed.

Lemma insert_by_key_erase a p l :
  insert_by_key (a, erase p) (prod_map id erase <$> l)
  = prod_map id erase <$> insert_by_key (a, p) l.
Proof.
  induction l as [|[b q] l IH]; [done|].
  rewrite fmap_cons. simpl. case_bool_decide; [done|].
  by rewrite fmap_cons, <- IH.
Qed.

Lemma sort_decorated_erase l :
  sort_decorated (prod_map id erase <$> l) = prod_map id erase <$> sort_decorated l.
Proof.
  induction l as [|[a p] l IH]; [done|].
  rewrite fmap_cons. simpl. by rewrite IH, insert_by_key_erase.
Qed.

Lemma decorate_erase p : decorate (erase p) = prod_map id erase <$> decorate p.
Proof.
  unfold decorate. rewrite getitem_erase by done.
  by destruct (getitem p "arrival").
Qed.

Lemma decorated_erase (ps : list proc) :
  comprehension decorate (erase <$> ps)
  = (λ l : list (Z * proc), prod_map id erase <$> l) <$> comprehension decorate ps.
Proof.
  induction ps as [|p ps IH]; [done|].
  rewrite fmap_cons. cbn [comprehension]. rewrite decorate_erase, IH.
  destruct (decorate p) as [x| |]; simpl; [|done..].
  by destruct (comprehension decorate ps).
Qed.

Lemma sort_by_arrival_erase (ps : list proc) :
  sort_by_arrival (erase <$> ps)
  = (λ l : list proc, erase <$> l) <$> sort_by_arrival ps.
Proof.
  unfold sort_by_arrival. rewrite decorated_erase.
  destruct (comprehension decorate ps) as [keyed| |]; simpl; [|done..].
  rewrite sort_decorated_erase, <- !list_fmap_compose. done.
Qed.

Lemma bursts_erase (ps : list proc) :
  comprehension (λ p, getitem p "burst") (erase <$> ps)
  = comprehension (λ p, getitem p "burst") ps.
Proof.
  induction ps as [|p ps IH]; [done|].
  rewrite fmap_cons. cbn [comprehension]. by rewrite getitem_erase, IH.
Qed.

Lemma sum_get_erase k (ps : list proc) : core_key k → sum_get k (erase <$> ps) = sum_get k ps.
Proof.
  intros Hk. induction ps as [|p ps IH]; [done|].
  rewrite fmap_cons. unfold sum_get in *. cbn [foldr]. rewrite IH.
  unfold get_default. by rewrite fields_erase.
Qed.

Lemma run_sorted_erase fuel (ps : list proc) :
  run_sorted fuel (erase <$> ps) = erase_result <$> run_sorted fuel ps.
Proof.
  unfold run_sorted. rewrite sort_by_arrival_erase, bind_fmap, fmap_bind.
  apply bind_ext. intros ps0. rewrite bursts_erase, fmap_bind.
  apply bind_ext. intros BL. rewrite length_fmap.
  change (initial_state (erase <$> ps0) BL) with (erase_state (initial_state ps0 BL)).
  rewrite while_loop_erase, bind_fmap, fmap_bind. apply bind_ext. intros st.
  simpl. by rewrite !sum_get_erase.
Qed.

Lemma srtf_run_sorted fuel p ps :
  srtf_scheduling fuel (p :: ps) = run_sorted fuel (alias <$> p :: ps).
Proof. done. Qed.

Lemma contains_None p k : fields p !! k = None → contains p k = false.
Proof.
  intros Hk. unfold contains. rewrite Hk. apply bool_decide_false, is_Some_None.
Qed.

Lemma contains_Some p k v : fields p !! k = Some v → contains p k = true.
Proof. intros Hk. unfold contains. rewrite Hk. by apply bool_decide_true. Qed.

Lemma alias_step_lookup new old p k :
  fields (alias_step new old p) !! k =
  if decide (k = new)
  then match fields p !! new with Some v => Some v | None => fields p !! old end
  else fields p !! k.
Proof.
  unfold alias_step.
  destruct (fields p !! old) as [v|] eqn:Hold;
    (destruct (fields p !! new) as [w|] eqn:Hnew;
     [rewrite ?(contains_Some _ _ _ Hnew) | rewrite ?(contains_None _ _ Hnew)]);
    simpl; case_decide; subst; by simplify_map_eq.
Qed.

Lemma rename_key_lookup old new p k :
  old ≠ new →
  fields (rename_key old new p) !! k =
  match fields p !! old with
  | Some v => if decide (k = new) then Some v
              else if decide (k = old) then None else fields p !! k
  | None => fields p !! k
  end.
Proof.
  intros Hne. unfold rename_key.
  destruct (fields p !! old) as [v|] eqn:Hold; [|done]. simpl.
  repeat case_decide; subst; by simplify_map_eq.
Qed.

Lemma rename_key_pid old new p : pid (rename_key old new p) = pid p.
Proof. unfold rename_key. by case_match. Qed.

Lemma erase_alias_respell ra rb p :
  plain p → erase (alias (respell ra rb p)) = erase (alias p).
Proof.
  intros [Hat Hbt]. unfold erase. f_equal.
  { rewrite !alias_pid. unfold respell.
    destruct ra, rb; by rewrite ?rename_key_pid. }
  apply map_eq. intros k.
  destruct (decide (k = "burst_time"%string)) as [->|Hk1];
    [by rewrite !lookup_delete_eq|].
  destruct (decide (k = "arrival_time"%string)) as [->|Hk2];
    [by rewrite !(lookup_delete_ne _ "burst_time"), !lookup_delete_eq|].
  rewrite !lookup_delete_ne by done.
  unfold alias. rewrite !alias_step_lookup.
  unfold respell.
  destruct ra, rb; rewrite ?rename_key_lookup by done; rewrite ?Hat, ?Hbt.
  all: repeat (case_decide; subst; try done).
  all: rewrite ?rename_key_lookup by done; rewrite ?Hat, ?Hbt.
  all: repeat (case_match; simplify_eq; try done).
Qed.

Lemma erase_same_metrics r r' : erase r = erase r' → same_metrics r r'.
Proof.
  intros Heq. split; [by injection Heq|].
  assert (∀ k, core_key k → fields r !! k = fields r' !! k) as Hk.
  { intros k Hk. by rewrite <- (fields_erase r), <- (fields_erase r'), Heq. }
  split_and!; by apply Hk.
Qed.

Lemma erase_same_outcome (o o' : outcome result) :
  erase_result <$> o = erase_result <$> o' → same_outcome o o'.
Proof.
  destruct o as [[[[recs aw] at'] g]|e|], o' as [[[[recs' aw'] at''] g']|e'|];
    simpl; try done; [|congruence].
  intros [= Hrecs -> -> ->]. split_and!; try done.
  revert recs' Hrecs. induction recs as [|r recs IH]; intros [|r' recs'];
    try done.
  rewrite !fmap_cons. intros Hcons.
  assert (erase r = erase r' ∧ erase <$> recs = erase <$> recs') as [Hr Hrecs]
    by (split; congruence).
  constructor; [by apply erase_same_metrics | by apply IH].
Qed.

(** * The claims *)

(** C1. On [{P1, 0, 8}, {P2, 1, 4}] the call returns, for any fuel of at
    least 12 iterations, the trace [P1, P2 x 4, P1 x 7] and the records
    P1: CT=12, TAT=12, WT=4 and P2: CT=5, TAT=4, WT=0; after the first
    tick P1 has 7 units left, P2 has 4, and the scan of tick 1 selects
    P2 (index 1). *)
Theorem C1_preemption_scenario (extra : nat) :
  srtf_scheduling (12 + extra) [descriptor "P1" 0 8; descriptor "P2" 1 4]
  = Ok ([record "P1" 0 8 12 12 4; record "P2" 1 4 5 4 0],
        truediv 4 2, truediv 16 2,
        ["P1"; "P2"; "P2"; "P2"; "P2"; "P1"; "P1"; "P1"; "P1"; "P1"; "P1"; "P1"]%string)
  ∧ ∃ st,
      iterate 1 2 (initial_state [descriptor "P1" 0 8; descriptor "P2" 1 4] [8; 4])
      = Ok st ∧
      remaining st = [7; 4] ∧ scan 2 st = Ok (Some 1%nat, 4).
Proof.
  split; [apply srtf_fuel; vm_compute; reflexivity|].
  eexists. split; [vm_compute; reflexivity|]. split; vm_compute; reflexivity.
Qed.

(** C2. On [{P1, 0, 10**9}, {P2, 0, 10**9}] both processes are runnable
    at tick 0 and tie on the smallest remaining burst, yet the scan
    selects none of them: the tick is idle, and so is every later one. *)
Theorem C2_tie_at_sentinel_selects_none :
  let ps := [descriptor "P1" 0 (10 ^ 9); descriptor "P2" 0 (10 ^ 9)] in
  let st0 := initial_state ps [10 ^ 9; 10 ^ 9] in
  Forall valid ps ∧
  runnable st0 0 (10 ^ 9) ∧ runnable st0 1 (10 ^ 9) ∧
  scan 2 st0 = Ok (None, sentinel) ∧
  schedule_at ps 0 = Ok None ∧
  ∀ fuel, srtf_scheduling fuel ps = OutOfFuel.
Proof.
  intros ps st0. split; [by repeat constructor|].
  split; [|split]; [eexists _, _; by repeat split..|].
  split; [vm_compute; reflexivity|]. split; [vm_compute; reflexivity|].
  intros fuel. unfold ps.
  rewrite (srtf_unfold fuel _ _ ps [10 ^ 9; 10 ^ 9]) by (vm_compute; reflexivity).
  rewrite stuck_diverges; [done| | |].
  - constructor; [done..|]. repeat constructor; by eexists.
  - simpl. lia.
  - repeat constructor; done.
Qed.

(** C3. The loop does not terminate on [{P1, 0, 10**9}], a descriptor
    with non-negative arrival and positive burst: its remaining burst is
    never below the sentinel [10**9], so every tick is idle. *)
Theorem C3_sentinel_burst_diverges :
  Forall valid [descriptor "P1" 0 (10 ^ 9)] ∧
  ∀ fuel, srtf_scheduling fuel [descriptor "P1" 0 (10 ^ 9)] = OutOfFuel.
Proof.
  split; [by repeat constructor|]. intros fuel.
  rewrite (srtf_unfold fuel _ _ [descriptor "P1" 0 (10 ^ 9)] [10 ^ 9])
    by (vm_compute; reflexivity).
  rewrite stuck_diverges; [done| | |].
  - constructor; [done..|]. repeat constructor; by eexists.
  - simpl. lia.
  - repeat constructor. done.
Qed.

(** C4. For every label sequence, the segments of [build_segments]
    expand to the sequence, start at 0, are contiguous with distinct
    adjacent labels, have positive lengths and ascending starts; the
    empty sequence gives no segment. *)
Theorem C4_segments {L : Type} `{EqDecision L} (gantt : list L) :
  expand (build_segments gantt) = gantt ∧
  (∀ s, build_segments gantt !! 0%nat = Some s → s.1.2 = 0%nat) ∧
  (∀ i s s', build_segments gantt !! i = Some s →
             build_segments gantt !! S i = Some s' →
             (s.1.2 + s.2)%nat = s'.1.2 ∧ s.1.1 ≠ s'.1.1) ∧
  Forall (λ s : L * nat * nat, (0 < s.2)%nat) (build_segments gantt) ∧
  StronglySorted (λ s s' : L * nat * nat, (s.1.2 < s'.1.2)%nat)
                 (build_segments gantt) ∧
  build_segments (@nil L) = [].
Proof.
  assert (expand (build_segments gantt) = gantt ∧ chained 0 (build_segments gantt))
    as [Hexp Hchain].
  { destruct gantt as [|cur l]; [done|]. simpl.
    destruct (build_loop_spec l 1 cur 0 1) as (He & Hc & _); [lia..|]. done. }
  destruct (chained_bounds _ _ Hchain) as [Hb Hs].
  split; [done|]. split; [|split; [|split; [|split]]]; try done.
  - intros s Hs0. destruct (build_segments gantt) as [|s0 segs]; [done|].
    injection Hs0 as ->. by destruct Hchain.
  - intros i s s'. by apply chained_lookup with 0%nat.
  - eapply Forall_impl; [done|]. simpl. by intros s [_ ?].
Qed.

(** C5 fails for a process whose pid is the string "Idle": its ticks are
    counted as idle. *)
Lemma C5_counterexample_idle_pid :
  Forall valid [descriptor "Idle" 0 1] ∧
  srtf_scheduling 1 [descriptor "Idle" 0 1]
  = Ok ([record "Idle" 0 1 1 1 0], truediv 0 1, truediv 1 1, ["Idle"%string]) ∧
  total_burst [descriptor "Idle" 0 1] + Z.of_nat (count_idle ["Idle"%string])
  ≠ Z.of_nat (length ["Idle"%string]).
Proof.
  split; [by repeat constructor|]. split; [vm_compute; reflexivity|].
  vm_compute. discriminate.
Qed.

(** C5 (amended). For descriptors with non-negative arrival and positive
    burst, none of which has the pid "Idle", the returned trace satisfies
    sum of bursts + number of "Idle" entries = length of the trace; and a
    trace is returned when every burst is below the sentinel. *)
Theorem C5_conservation ps :
  Forall valid ps → Forall (λ p, pid p ≠ "Idle"%string) ps →
  (∀ fuel recs aw at' g,
     srtf_scheduling fuel ps = Ok (recs, aw, at', g) →
     total_burst ps + Z.of_nat (count_idle g) = Z.of_nat (length g)) ∧
  (Forall below_sentinel ps → ∃ res, srtf_scheduling (enough_fuel ps) ps = Ok res).
Proof.
  intros Hvalid Hpid. split; [|by apply srtf_returns].
  intros fuel recs aw at' g Hrun. destruct ps as [|p ps].
  { by injection Hrun as <- <- <- <-. }
  destruct (srtf_sound _ _ _ _ _ _ _ Hvalid Hrun)
    as (ps0 & AL & BL & k & st & Hsort & _ & HAL & HBL & Hpos & _ & Hsum & _ &
        Hinv & Hdone & _ & -> & _).
  assert (Forall (λ p, pid p ≠ "Idle"%string) ps0) as Hpid0.
  { destruct (sort_by_arrival_Ok _ _ Hsort) as (Hperm & _). rewrite Hperm.
    apply Forall_fmap. eapply Forall_impl; [done|]. simpl.
    intros q. by rewrite alias_pid. }
  pose proof (inv_idle _ _ _ _ _ Hinv Hpid0) as Hc.
  rewrite (inv_final_sum ps0 AL BL k st Hinv Hdone) in Hc.
  rewrite (inv_gantt _ _ _ _ _ Hinv). lia.
Qed.

Lemma C5_conservation_witness :
  Forall valid [descriptor "P1" 3 2] ∧
  Forall (λ p, pid p ≠ "Idle"%string) [descriptor "P1" 3 2] ∧
  total_burst [descriptor "P1" 3 2]
  + Z.of_nat (count_idle ["Idle"; "Idle"; "Idle"; "P1"; "P1"]%string)
  = Z.of_nat (length ["Idle"; "Idle"; "Idle"; "P1"; "P1"]%string).
Proof.
  assert (Forall valid [descriptor "P1" 3 2]) as Hv by (by repeat constructor).
  assert (Forall (λ p, pid p ≠ "Idle"%string) [descriptor "P1" 3 2]) as Hp
    by (by repeat constructor).
  split; [done|]. split; [done|].
  apply (proj1 (C5_conservation [descriptor "P1" 3 2] Hv Hp) 5%nat
           [record "P1" 3 2 5 2 0] (truediv 0 1) (truediv 2 1)).
  vm_compute. reflexivity.
Defined.

(** C6. For descriptors with non-negative arrival and positive burst,
    every returned record has CT >= arrival + burst and CT <= T, the
    length of the returned trace; and a result is returned when every
    burst is below the sentinel. *)
Theorem C6_completion_bounds ps :
  Forall valid ps →
  (∀ fuel recs aw at' g,
     srtf_scheduling fuel ps = Ok (recs, aw, at', g) →
     Forall (λ rec, ∃ ct a b,
               fields rec !! "ct" = Some ct ∧
               fields rec !! "arrival" = Some a ∧
               fields rec !! "burst" = Some b ∧
               a + b ≤ ct ∧ ct ≤ Z.of_nat (length g)) recs) ∧
  (Forall below_sentinel ps → ∃ res, srtf_scheduling (enough_fuel ps) ps = Ok res).
Proof.
  intros Hvalid. split; [|by apply srtf_returns].
  intros fuel recs aw at' g Hrun. destruct ps as [|p ps].
  { injection Hrun as <- <- <- <-. constructor. }
  destruct (srtf_records _ _ _ _ _ _ _ Hvalid Hrun) as (ps0 & _ & _ & Hrecs).
  apply Forall_lookup. intros i rec Hrec.
  destruct (Hrecs i rec Hrec)
    as (p0 & a & b & c & _ & Ha & Hb & _ & _ & -> & Hct & Hc & _).
  destruct (finished_fields p0 (Z.of_nat (S c)) a b Ha Hb _ eq_refl)
    as (_ & ? & ? & ? & _).
  exists (Z.of_nat (S c)), a, b. split_and!; try done. lia.
Qed.

Lemma C6_completion_bounds_witness :
  Forall valid [descriptor "P1" 0 8; descriptor "P2" 1 4] ∧
  Forall (λ rec, ∃ ct a b,
            fields rec !! "ct" = Some ct ∧
            fields rec !! "arrival" = Some a ∧
            fields rec !! "burst" = Some b ∧
            a + b ≤ ct ∧ ct ≤ 12)
         [record "P1" 0 8 12 12 4; record "P2" 1 4 5 4 0].
Proof.
  assert (Forall valid [descriptor "P1" 0 8; descriptor "P2" 1 4]) as Hv
    by (by repeat constructor).
  split; [done|].
  apply (proj1 (C6_completion_bounds _ Hv) 12%nat _ (truediv 4 2) (truediv 16 2)
           ["P1"; "P2"; "P2"; "P2"; "P2"; "P1"; "P1"; "P1"; "P1"; "P1"; "P1"; "P1"]%string).
  vm_compute. reflexivity.
Defined.

(** C7. For descriptors with non-negative arrival and positive burst,
    the record returned at position [i] has CT = c + 1 where tick [c] is
    the last tick at which process [i] executed (the trace entry at
    index [c] is its pid), TAT = CT - arrival and WT = TAT - burst
    clamped below at zero, hence WT >= 0; and a result is returned when
    every burst is below the sentinel. *)
Theorem C7_metrics ps :
  Forall valid ps →
  (∀ fuel recs aw at' g i rec,
     srtf_scheduling fuel ps = Ok (recs, aw, at', g) →
     recs !! i = Some rec →
     ∃ (c : nat) (a b ct tat wt : Z),
       fields rec !! "arrival" = Some a ∧ fields rec !! "burst" = Some b ∧
       fields rec !! "ct" = Some ct ∧ fields rec !! "tat" = Some tat ∧
       fields rec !! "wt" = Some wt ∧
       (c < length g)%nat ∧ g !! c = Some (pid rec) ∧
       schedule_at ps c = Ok (Some i) ∧
       (∀ j, (c < j < length g)%nat → schedule_at ps j ≠ Ok (Some i)) ∧
       ct = Z.of_nat c + 1 ∧ tat = ct - a ∧ wt = Z.max 0 (tat - b) ∧ 0 ≤ wt) ∧
  (Forall below_sentinel ps → ∃ res, srtf_scheduling (enough_fuel ps) ps = Ok res).
Proof.
  intros Hvalid. split; [|by apply srtf_returns].
  intros fuel recs aw at' g i rec Hrun Hrec. destruct ps as [|p ps].
  { by injection Hrun as <- <- <- <-. }
  destruct (srtf_records _ _ _ _ _ _ _ Hvalid Hrun) as (ps0 & _ & _ & Hrecs).
  destruct (Hrecs i rec Hrec)
    as (p0 & a & b & c & _ & Ha & Hb & _ & _ & Heq & Hct & Hc & Hg & Hsel & Hlast).
  destruct (finished_fields p0 (Z.of_nat (S c)) a b Ha Hb _ Heq)
    as (_ & ? & ? & ? & ? & ?).
  exists c, a, b, (Z.of_nat (S c)), (Z.of_nat (S c) - a),
    (Z.max 0 (Z.of_nat (S c) - a - b)).
  split_and!; try done; lia.
Qed.

Lemma C7_metrics_witness :
  Forall valid [descriptor "P1" 0 8; descriptor "P2" 1 4] ∧
  ∃ (c : nat) (a b ct tat wt : Z),
    fields (record "P2" 1 4 5 4 0) !! "arrival" = Some a ∧
    fields (record "P2" 1 4 5 4 0) !! "burst" = Some b ∧
    fields (record "P2" 1 4 5 4 0) !! "ct" = Some ct ∧
    fields (record "P2" 1 4 5 4 0) !! "tat" = Some tat ∧
    fields (record "P2" 1 4 5 4 0) !! "wt" = Some wt ∧
    (c < 12)%nat ∧
    ["P1"; "P2"; "P2"; "P2"; "P2"; "P1"; "P1"; "P1"; "P1"; "P1"; "P1"; "P1"]%string
      !! c = Some "P2"%string ∧
    schedule_at [descriptor "P1" 0 8; descriptor "P2" 1 4] c = Ok (Some 1%nat) ∧
    (∀ j, (c < j < 12)%nat →
          schedule_at [descriptor "P1" 0 8; descriptor "P2" 1 4] j ≠ Ok (Some 1%nat)) ∧
    ct = Z.of_nat c + 1 ∧ tat = ct - a ∧ wt = Z.max 0 (tat - b) ∧ 0 ≤ wt.
Proof.
  assert (Forall valid [descriptor "P1" 0 8; descriptor "P2" 1 4]) as Hv
    by (by repeat constructor).
  split; [done|].
  apply (proj1 (C7_metrics _ Hv) 12%nat
           [record "P1" 0 8 12 12 4; record "P2" 1 4 5 4 0]
           (truediv 4 2) (truediv 16 2)
           ["P1"; "P2"; "P2"; "P2"; "P2"; "P1"; "P1"; "P1"; "P1"; "P1"; "P1"; "P1"]%string
           1%nat (record "P2" 1 4 5 4 0)).
  - vm_compute. reflexivity.
  - reflexivity.
Defined.

(** C8. On the empty list the call returns the empty record list, both
    averages 0.0 and the empty trace, whatever the fuel: the loop is not
    entered and nothing is raised. *)
Theorem C8_empty_input (fuel : nat) :
  srtf_scheduling fuel [] = Ok ([], Qmake 0 1, Qmake 0 1, []).
Proof. reflexivity. Qed.

(** C9. Renaming 'arrival' to 'arrival_time' and/or 'burst' to
    'burst_time' in any of the descriptors of a list spelled with
    'arrival' and 'burst' changes neither how the call ends nor, when it
    returns, the trace, the two averages and the pid, ct, tat and wt of
    every record. *)
Theorem C9_alias_spelling (fuel : nat) (ps ps' : list proc) :
  Forall plain ps →
  Forall2 (λ p p', ∃ ra rb, p' = respell ra rb p) ps ps' →
  same_outcome (srtf_scheduling fuel ps) (srtf_scheduling fuel ps').
Proof.
  intros Hplain Hren.
  assert (erase <$> (alias <$> ps') = erase <$> (alias <$> ps)) as Heq.
  { induction Hren as [|p p' ps ps' (ra & rb & ->) _ IH]; [done|].
    apply Forall_cons in Hplain as [Hp Hps].
    rewrite !fmap_cons, (IH Hps). f_equal. by apply erase_alias_respell. }
  apply erase_same_outcome.
  destruct Hren as [|p p' ps ps' _ _]; [done|].
  rewrite !srtf_run_sorted, <- !run_sorted_erase. by rewrite Heq.
Qed.

Lemma C9_alias_spelling_witness :
  Forall plain [descriptor "P1" 0 8; descriptor "P2" 1 4] ∧
  Forall2 (λ p p', ∃ ra rb, p' = respell ra rb p)
    [descriptor "P1" 0 8; descriptor "P2" 1 4]
    [respell true false (descriptor "P1" 0 8);
     respell false true (descriptor "P2" 1 4)] ∧
  same_outcome
    (srtf_scheduling 12 [descriptor "P1" 0 8; descriptor "P2" 1 4])
    (srtf_scheduling 12 [respell true false (descriptor "P1" 0 8);
                         respell false true (descriptor "P2" 1 4)]).
Proof.
  assert (Forall plain [descriptor "P1" 0 8; descriptor "P2" 1 4]) as Hp
    by (by repeat constructor).
  assert (Forall2 (λ p p', ∃ ra rb, p' = respell ra rb p)
            [descriptor "P1" 0 8; descriptor "P2" 1 4]
            [respell true false (descriptor "P1" 0 8);
             respell false true (descriptor "P2" 1 4)]) as Hr
    by (repeat constructor; by eexists _, _).
  split; [done|]. split; [done|].
  exact (C9_alias_spelling 12 _ _ Hp Hr).
Defined.

(** The respelled scenario does return, with the records of C1 carrying
    the alternate keys as well. *)
Lemma respelled_scenario_returns :
  ∃ recs,
    srtf_scheduling 12 [respell true false (descriptor "P1" 0 8);
                        respell false true (descriptor "P2" 1 4)]
    = Ok (recs, truediv 4 2, truediv 16 2,
          ["P1"; "P2"; "P2"; "P2"; "P2"; "P1"; "P1"; "P1"; "P1"; "P1"; "P1"; "P1"]%string).
Proof. eexists. vm_compute. reflexivity. Qed.

(** C10. For descriptors with non-negative arrival and positive burst,
    the returned records are in non-decreasing order of arrival, and are
    the descriptors, completed by their metrics, in an order that keeps
    the input order among equal arrivals.  That order is in general
    neither the input order (first example) nor the completion order
    (second example). *)
Theorem C10_record_order ps :
  Forall valid ps →
  (∀ fuel recs aw at' g,
     srtf_scheduling fuel ps = Ok (recs, aw, at', g) →
     StronglySorted le_arrival recs ∧
     ∃ ps0,
       Forall2 (λ p0 rec, ∃ c a b, rec = finished p0 c a b) ps0 recs ∧
       ∀ a, filter (arrives_at a) ps0 = filter (arrives_at a) (alias <$> ps)) ∧
  (Forall below_sentinel ps → ∃ res, srtf_scheduling (enough_fuel ps) ps = Ok res) ∧
  srtf_scheduling 2 [descriptor "P1" 1 1; descriptor "P2" 0 1]
  = Ok ([record "P2" 0 1 1 1 0; record "P1" 1 1 2 1 0],
        truediv 0 2, truediv 2 2, ["P2"; "P1"]%string) ∧
  srtf_scheduling 12 [descriptor "P1" 0 8; descriptor "P2" 1 4]
  = Ok ([record "P1" 0 8 12 12 4; record "P2" 1 4 5 4 0],
        truediv 4 2, truediv 16 2,
        ["P1"; "P2"; "P2"; "P2"; "P2"; "P1"; "P1"; "P1"; "P1"; "P1"; "P1"; "P1"]%string).
Proof.
  intros Hvalid.
  split; [|split; [by apply srtf_returns | split; vm_compute; reflexivity]].
  intros fuel recs aw at' g Hrun. destruct ps as [|p ps].
  { injection Hrun as <- <- <- <-. split; [constructor|]. by exists []. }
  destruct (srtf_records _ _ _ _ _ _ _ Hvalid Hrun) as (ps0 & Hsort & Hlen & Hrecs).
  destruct (sort_by_arrival_Ok _ _ Hsort) as (_ & Hsorted & Hstable & _).
  assert (Forall2 (λ p0 rec, ∃ (c a b : Z),
                     fields p0 !! "arrival" = Some a ∧
                     fields p0 !! "burst" = Some b ∧
                     rec = finished p0 c a b) ps0 recs) as Hall.
  { apply Forall2_same_length_lookup_2; [done|]. intros i p0 rec Hp0 Hrec.
    destruct (Hrecs i rec Hrec) as (p0' & a & b & c & Hp0' & ? & ? & _ & _ & ? & _).
    assert (p0' = p0) as -> by congruence. by exists (Z.of_nat (S c)), a, b. }
  split.
  - eapply StronglySorted_Forall2; [|apply Hall|apply Hsorted]. simpl.
    intros x y x' y' Hxy (c & a & b & Ha & Hb & ->) (c' & a' & b' & Ha' & Hb' & ->).
    destruct (finished_fields x c a b Ha Hb _ eq_refl) as (_ & Hx & _).
    destruct (finished_fields y c' a' b' Ha' Hb' _ eq_refl) as (_ & Hy & _).
    unfold le_arrival in *. by rewrite Hx, Hy, Ha, Ha' in *.
  - exists ps0. split; [|done].
    eapply Forall2_impl; [done|]. simpl.
    intros x y (c & a & b & _ & _ & ->). by exists c, a, b.
Qed.

Lemma C10_record_order_witness :
  Forall valid [descriptor "P1" 1 1; descriptor "P2" 0 1] ∧
  StronglySorted le_arrival [record "P2" 0 1 1 1 0; record "P1" 1 1 2 1 0].
Proof.
  assert (Forall valid [descriptor "P1" 1 1; descriptor "P2" 0 1]) as Hv
    by (by repeat constructor).
  split; [done|].
  apply (proj1 (C10_record_order _ Hv) 2%nat _ (truediv 0 2) (truediv 2 2)
           ["P2"; "P1"]%string).
  vm_compute. reflexivity.
Defined.

(** * Inputs outside the precondition *)

(** ** Missing fields *)

Lemma decorate_raises (l : list proc) :
  Exists (λ p, fields p !! "arrival" = None) l →
  comprehension decorate l = Raise (KeyError "arrival").
Proof.
  induction l as [|p l IH]; intros Hex; [by apply Exists_nil in Hex|].
  destruct (fields p !! "arrival") as [a|] eqn:Ha.
  - assert (decorate p = Ok (a, p)) as Hd
      by (unfold decorate, getitem; by rewrite Ha).
    apply Exists_cons in Hex as [Hp|Hl]; [congruence|].
    simpl. rewrite Hd. simpl. by rewrite (IH Hl).
  - assert (decorate p = Raise (KeyError "arrival")) as Hd
      by (unfold decorate, getitem; by rewrite Ha).
    simpl. by rewrite Hd.
Qed.

Lemma bursts_raise (l : list proc) :
  Exists (λ p, fields p !! "burst" = None) l →
  comprehension (λ p, getitem p "burst") l = Raise (KeyError "burst").
Proof.
  induction l as [|p l IH]; intros Hex; [by apply Exists_nil in Hex|].
  destruct (fields p !! "burst") as [b|] eqn:Hb.
  - assert (getitem p "burst" = Ok b) as Hd by (by apply getitem_Ok).
    apply Exists_cons in Hex as [Hp|Hl]; [congruence|].
    simpl. rewrite Hd. simpl. by rewrite (IH Hl).
  - assert (getitem p "burst" = Raise (KeyError "burst")) as Hd
      by (unfold getitem; by rewrite Hb).
    simpl. by rewrite Hd.
Qed.


Lemma initial_well_formed ps0 BL :
  Forall (λ p, is_Some (fields p !! "arrival")) ps0 →
  Forall2 (λ p b, fields p !! "burst" = Some b) ps0 BL →
  well_formed (length ps0) (initial_state ps0 BL).
Proof.
  intros Ha Hb. constructor; simpl; [done|symmetry; by eapply Forall2_length|].
  apply Forall_lookup. intros i p Hp. split.
  - by apply (Forall_lookup_1 _ _ _ _ Ha Hp).
  - destruct (Forall2_lookup_l _ _ _ _ _ Hb Hp) as (b & _ & ?). by exists b.
Qed.

(** The lines before the loop, when every field is present. *)
Lemma prelude_fields ps :
  Forall has_fields ps →
  ∃ ps0 AL BL,
    sort_by_arrival (alias <$> ps) = Ok ps0 ∧
    comprehension (λ p, getitem p "burst") ps0 = Ok BL ∧
    Forall2 (λ p a, fields p !! "arrival" = Some a) ps0 AL ∧
    Forall2 (λ p b, fields p !! "burst" = Some b) ps0 BL ∧
    ps0 ≡ₚ alias <$> ps ∧
    sumZ BL = total_burst ps ∧ max_arrival AL = latest_arrival ps.
Proof.
  intros Hf.
  assert (Forall (λ p, is_Some (fields (alias p) !! "arrival") ∧
                       is_Some (fields (alias p) !! "burst")) ps) as Hf'.
  { eapply Forall_impl; [done|]. simpl. unfold has_fields, arrival_of, burst_of.
    intros p [?%bool_decide_unpack ?%bool_decide_unpack]%andb_True. done. }
  destruct (sort_by_arrival_total (alias <$> ps)) as [ps0 Hsort].
  { apply Forall_fmap. eapply Forall_impl; [done|]. by intros p [? _]. }
  destruct (sort_by_arrival_Ok _ _ Hsort) as (Hperm & _ & _ & AL & HAL).
  destruct (bursts_total ps0) as [BL HBL].
  { rewrite Hperm. apply Forall_fmap. eapply Forall_impl; [done|]. by intros p [_ ?]. }
  pose proof HBL as HBL'. apply bursts_Ok in HBL'.
  exists ps0, AL, BL. split_and!; try done.
  - rewrite (bursts_sum _ _ HBL'). unfold total_burst. by apply sum_get_perm.
  - rewrite (arrivals_list _ _ HAL). unfold latest_arrival.
    change (λ p, get_default (alias p) "arrival" 0)
      with ((λ p, get_default p "arrival" 0) ∘ alias).
    rewrite (list_fmap_compose alias). apply max_arrival_perm.
    by apply fmap_Permutation.
Qed.

(** A property of the bursts of the input holds of the list [BL] read by
    the loop. *)
Lemma bursts_of_input (P : Z → Prop) ps ps0 BL :
  ps0 ≡ₚ alias <$> ps →
  Forall2 (λ p b, fields p !! "burst" = Some b) ps0 BL →
  Forall (λ p, ∀ b, burst_of p = Some b → P b) ps →
  Forall P BL.
Proof.
  intros Hperm HBL HP. apply Forall_lookup. intros i b Hb.
  destruct (Forall2_lookup_r _ _ _ _ _ HBL Hb) as (p & Hp & Hpb).
  apply list_elem_of_lookup_2 in Hp. rewrite Hperm in Hp.
  apply list_elem_of_fmap in Hp as (q & -> & Hq).
  by apply (proj1 (list.Forall_forall _ _) HP q Hq).
Qed.

Lemma bursts_of_input_exists (P : Z → Prop) ps ps0 BL :
  ps0 ≡ₚ alias <$> ps →
  Forall2 (λ p b, fields p !! "burst" = Some b) ps0 BL →
  Exists (λ p, ∃ b, burst_of p = Some b ∧ P b) ps →
  Exists P BL.
Proof.
  intros Hperm HBL Hex. apply list.Exists_exists in Hex as (p & Hp & b & Hb & HPb).
  assert (alias p ∈ ps0) as Hin by (rewrite Hperm; by apply list_elem_of_fmap_2).
  apply list_elem_of_lookup in Hin as [i Hi].
  destruct (Forall2_lookup_l _ _ _ _ _ HBL Hi) as (b' & Hb' & Hpb).
  apply list.Exists_exists. exists b'. split; [by eapply list_elem_of_lookup_2|].
  unfold burst_of in Hb. congruence.
Qed.

Lemma srtf_missing_arrival fuel ps :
  Exists (λ p, arrival_of p = None) ps →
  srtf_scheduling fuel ps = Raise (KeyError "arrival").
Proof.
  intros Hna. destruct ps as [|p ps]; [by apply Exists_nil in Hna|].
  unfold srtf_scheduling, sort_by_arrival.
  rewrite decorate_raises; [done|]. by apply Exists_fmap.
Qed.

Lemma srtf_missing_burst fuel ps :
  Forall (λ p, is_Some (arrival_of p)) ps →
  Exists (λ p, burst_of p = None) ps →
  srtf_scheduling fuel ps = Raise (KeyError "burst").
Proof.
  intros Hall Hnb. destruct ps as [|p ps]; [by apply Exists_nil in Hnb|].
  destruct (sort_by_arrival_total (alias <$> p :: ps)) as [ps0 Hsort].
  { by apply Forall_fmap. }
  destruct (sort_by_arrival_Ok _ _ Hsort) as (Hperm & _).
  unfold srtf_scheduling. rewrite Hsort. simpl.
  rewrite bursts_raise; [done|]. rewrite Hperm. by apply Exists_fmap.
Qed.


(** The three cases of an input: a missing arrival, a missing burst, or
    every field present. *)
Lemma fields_cases ps :
  Exists (λ p, arrival_of p = None) ps ∨
  (Forall (λ p, is_Some (arrival_of p)) ps ∧ Exists (λ p, burst_of p = None) ps) ∨
  Forall has_fields ps.
Proof.
  destruct (decide (Exists (λ p, arrival_of p = None) ps)) as [?|Ha]; [by left|].
  right.
  assert (Forall (λ p, is_Some (arrival_of p)) ps) as Hall.
  { apply Forall_forall. intros p Hp. destruct (arrival_of p) eqn:Hap; [done|].
    destruct Ha. apply list.Exists_exists. by exists p. }
  destruct (decide (Exists (λ p, burst_of p = None) ps)) as [?|Hb]; [by left|].
  right. apply Forall_forall. intros p Hp. unfold has_fields.
  apply andb_True. split; apply bool_decide_pack.
  - by apply (proj1 (list.Forall_forall _ _) Hall).
  - destruct (burst_of p) eqn:Hbp; [done|].
    destruct Hb. apply list.Exists_exists. by exists p.
Qed.

Lemma srtf_Ok_fields fuel ps res :
  srtf_scheduling fuel ps = Ok res → Forall has_fields ps.
Proof.
  intros Hrun. destruct (fields_cases ps) as [Hna|[[Hall Hnb]|Hf]]; [| |done].
  - by rewrite (srtf_missing_arrival fuel ps Hna) in Hrun.
  - by rewrite (srtf_missing_burst fuel ps Hall Hnb) in Hrun.
Qed.


(** ** Bursts that the scan never selects *)

Lemma selectable_range b : selectable b ↔ 0 < b ∧ b < sentinel.
Proof.
  unfold selectable. by rewrite andb_True, !bool_decide_spec.
Qed.

Lemma pending_initial BL :
  pending BL BL = length (filter (λ b, selectable b) BL).
Proof.
  induction BL as [|b BL IH]; [done|]. simpl. rewrite filter_cons, IH.
  case_decide as Hs.
  - assert (0 < b) by (by apply selectable_range).
    apply Is_true_true in Hs. rewrite Hs. by rewrite bool_decide_true.
  - apply Is_true_false in Hs. by rewrite Hs.
Qed.

Lemma pending_insert (BL rem : list Z) (i : nat) (b r r' : Z) :
  BL !! i = Some b → rem !! i = Some r → selectable b → 0 < r →
  (pending BL (<[i := r']> rem) + 1
   = pending BL rem + (if bool_decide (0 < r')%Z then 1 else 0))%nat.
Proof.
  revert rem i. induction BL as [|b0 BL IH]; intros [|r0 rem] [|i] Hb Hr Hsel Hpos;
    try done.
  - injection Hb as ->. injection Hr as ->.
    change (<[0%nat := r']> (r :: rem)) with (r' :: rem). simpl.
    apply Is_true_true in Hsel. rewrite Hsel. simpl.
    rewrite (bool_decide_true (0 < r)) by done. lia.
  - change (<[S i := r']> (r0 :: rem)) with (r0 :: <[i := r']> rem). simpl.
    specialize (IH rem i Hb Hr Hsel Hpos). lia.
Qed.

Lemma loose_initial ps0 BL :
  well_formed (length ps0) (initial_state ps0 BL) →
  loose_inv (length ps0) BL (initial_state ps0 BL).
Proof.
  intros Hwf. constructor; simpl; try done.
  - apply Hwf.
  - by rewrite pending_initial.
Qed.

Lemma loose_step n BL st sel st' :
  loose_inv n BL st → step st sel st' → loose_inv n BL st'.
Proof.
  intros [Hwf Hlen Hstuck Hcount] Hstep.
  pose proof (step_well_formed _ _ _ _ Hwf Hstep) as Hwf'.
  destruct Hstep as [|i p a b r Hp Ha Hb Hr Hat Hpos Hs _ _]; [by constructor|].
  destruct (lookup_lt_is_Some_2 BL i) as [b0 Hb0].
  { rewrite Hlen, <- (wf_remaining _ _ Hwf). by eapply lookup_lt_Some. }
  assert (selectable b0) as Hsel.
  { destruct (decide (selectable b0)) as [|Hns]; [done|]. exfalso.
    rewrite (Hstuck i b0 Hb0 Hns) in Hr. injection Hr as ->.
    by apply Hns, selectable_range. }
  constructor; simpl; try done.
  - intros j bj Hbj Hnsel. rewrite list_lookup_insert_ne; [by apply Hstuck|].
    intros ->. congruence.
  - pose proof (pending_insert BL (remaining st) i b0 r (r - 1) Hb0 Hr Hsel Hpos).
    repeat case_bool_decide; lia.
Qed.

Lemma loose_diverges fuel n BL st :
  loose_inv n BL st → Exists (λ b, ¬ selectable b) BL →
  while_loop fuel n st = OutOfFuel.
Proof.
  intros Hinv Hex.
  assert (length (filter (λ b, selectable b) BL) < n)%nat as Hlt.
  { rewrite <- (loose_length _ _ _ Hinv).
    apply list.Exists_exists in Hex as (b & Hin & Hb).
    by eapply length_filter_lt. }
  revert st Hinv. induction fuel as [|fuel IH]; intros st Hinv; simpl;
    pose proof (loose_count _ _ _ Hinv);
    rewrite bool_decide_true by lia; [done|].
  destruct (loop_body_step n st (loose_wf _ _ _ Hinv)) as (acc & st' & _ & -> & Hstep).
  simpl. apply IH. by eapply loose_step.
Qed.

Lemma srtf_unschedulable fuel ps :
  Forall has_fields ps →
  Exists (λ p, ∃ b, burst_of p = Some b ∧ ¬ selectable b) ps →
  srtf_scheduling fuel ps = OutOfFuel.
Proof.
  intros Hf Hex. destruct ps as [|p ps]; [by apply Exists_nil in Hex|].
  destruct (prelude_fields _ Hf)
    as (ps0 & AL & BL & Hsort & HBL & HAL & HBL' & Hperm & _).
  rewrite (srtf_unfold fuel _ _ ps0 BL Hsort HBL).
  rewrite (loose_diverges fuel (length ps0) BL); [done| |].
  - apply loose_initial, initial_well_formed; [|done].
    apply Forall_lookup. intros i q Hq.
    destruct (Forall2_lookup_l _ _ _ _ _ HAL Hq) as (a & _ & ?). by exists a.
  - by eapply (bursts_of_input_exists (λ b, ¬ selectable b)).
Qed.

Lemma srtf_Ok_schedulable fuel ps res :
  srtf_scheduling fuel ps = Ok res → Forall schedulable ps.
Proof.
  intros Hrun. pose proof (srtf_Ok_fields _ _ _ Hrun) as Hf.
  apply Forall_forall. intros p Hp.
  pose proof (proj1 (list.Forall_forall _ _) Hf p Hp) as Hfp.
  unfold has_fields in Hfp.
  apply andb_True in Hfp as [[a Ha]%bool_decide_unpack [b Hb]%bool_decide_unpack].
  unfold schedulable. rewrite Ha, Hb.
  destruct (decide (selectable b)) as [|Hns]; [done|].
  rewrite (srtf_unschedulable fuel ps Hf) in Hrun; [done|].
  apply list.Exists_exists. exists p. split; [done|]. by exists b.
Qed.

(** X5. With every field present, a single process whose burst is zero,
    negative, or 10**9 or more keeps the call from ever returning: such a
    process is never selected, [completed] never reaches [n], and the
    loop idles or serves the others for ever without raising. *)
Theorem unschedulable_diverges (ps : list proc) :
  Forall has_fields ps →
  Exists (λ p, ∃ b, burst_of p = Some b ∧ ¬ selectable b) ps →
  ∀ fuel, srtf_scheduling fuel ps = OutOfFuel.
Proof. intros Hf Hex fuel. by apply srtf_unschedulable. Qed.

Lemma unschedulable_diverges_witness :
  Forall has_fields [descriptor "P1" 0 2; descriptor "P2" 1 0] ∧
  Exists (λ p, ∃ b, burst_of p = Some b ∧ ¬ selectable b)
    [descriptor "P1" 0 2; descriptor "P2" 1 0] ∧
  ∀ fuel, srtf_scheduling fuel [descriptor "P1" 0 2; descriptor "P2" 1 0]
          = OutOfFuel.
Proof.
  assert (Forall has_fields [descriptor "P1" 0 2; descriptor "P2" 1 0]) as Hf
    by (by repeat constructor).
  assert (Exists (λ p, ∃ b, burst_of p = Some b ∧ ¬ selectable b)
            [descriptor "P1" 0 2; descriptor "P2" 1 0]) as Hex.
  { apply Exists_cons_tl, Exists_cons_hd. exists 0. split; [done|]. by intros ?. }
  split; [done|]. split; [done|].
  exact (unschedulable_diverges _ Hf Hex).
Defined.

(** ** Returned results, whatever the input *)

Section trajectory.
Variables (ps0 : list proc) (AL BL : list Z).
Hypothesis HAL : Forall2 (λ p a, fields p !! "arrival" = Some a) ps0 AL.
Hypothesis HBL : Forall2 (λ p b, fields p !! "burst" = Some b) ps0 BL.
Hypothesis Hpos : Forall (λ b, 0 < b) BL.

(** The states of a run that returns: the invariant holds at every tick,
    and the loop condition holds at every tick but the last. *)
Lemma while_loop_run fuel k st st' :
  inv ps0 AL BL k st →
  while_loop fuel (length ps0) st = Ok st' →
  ∃ T, (k ≤ T)%nat ∧ inv ps0 AL BL T st' ∧ (length ps0 ≤ completed st')%nat ∧
       ∀ j, (k ≤ j ≤ T)%nat →
            ∃ stj, iterate j (length ps0) (initial_state ps0 BL) = Ok stj ∧
                   inv ps0 AL BL j stj ∧
                   ((j < T)%nat → (completed stj < length ps0)%nat).
Proof.
  revert k st. induction fuel as [|fuel IH]; intros k st Hinv; simpl;
    case_bool_decide as Hlt; try discriminate.
  - intros [= <-]. exists k. split_and!; [lia|done|lia|].
    intros j Hj. assert (j = k) as -> by lia.
    exists st. split_and!; [apply Hinv|done|lia].
  - intros (st1 & Hbody & Hloop)%bind_Ok.
    pose proof (inv_step ps0 AL BL HAL HBL Hpos k st st1 Hinv Hlt Hbody) as Hinv1.
    destruct (IH (S k) st1 Hinv1 Hloop) as (T & HT & HinvT & Hdone & Htraj).
    exists T. split_and!; [lia|done|done|].
    intros j Hj. destruct (decide (j = k)) as [->|]; [|apply Htraj; lia].
    exists st. split_and!; [apply Hinv|done|done].
  - intros [= <-]. exists k. split_and!; [lia|done|lia|].
    intros j Hj. assert (j = k) as -> by lia.
    exists st. split_and!; [apply Hinv|done|lia].
Qed.
End trajectory.

Lemma schedulable_keys p :
  schedulable p →
  ∃ a b, fields (alias p) !! "arrival" = Some a ∧
         fields (alias p) !! "burst" = Some b ∧ 0 < b ∧ b < sentinel.
Proof.
  unfold schedulable, arrival_of, burst_of.
  destruct (fields (alias p) !! "arrival") as [a|]; [|done].
  destruct (fields (alias p) !! "burst") as [b|]; [|done].
  intros [? ?]%selectable_range. by exists a, b.
Qed.

Lemma schedulable_has_fields p : schedulable p → has_fields p.
Proof.
  intros (a & b & Ha & Hb & _)%schedulable_keys.
  unfold has_fields, arrival_of, burst_of. rewrite Ha, Hb.
  apply andb_True. split; by apply bool_decide_pack.
Qed.

(** The lines before the loop on a schedulable input. *)
Lemma prelude_schedulable ps :
  Forall schedulable ps →
  ∃ ps0 AL BL,
    sort_by_arrival (alias <$> ps) = Ok ps0 ∧
    comprehension (λ p, getitem p "burst") ps0 = Ok BL ∧
    Forall2 (λ p a, fields p !! "arrival" = Some a) ps0 AL ∧
    Forall2 (λ p b, fields p !! "burst" = Some b) ps0 BL ∧
    ps0 ≡ₚ alias <$> ps ∧
    sumZ BL = total_burst ps ∧ max_arrival AL = latest_arrival ps ∧
    Forall (λ b, 0 < b) BL ∧ Forall (λ b, b < sentinel) BL.
Proof.
  intros Hs.
  destruct (prelude_fields ps) as (ps0 & AL & BL & ? & ? & ? & HBL & Hperm & ? & ?).
  { eapply Forall_impl; [done|]. apply schedulable_has_fields. }
  exists ps0, AL, BL. split_and!; try done.
  - apply (bursts_of_input (λ b, 0 < b) ps ps0 BL Hperm HBL).
    eapply Forall_impl; [done|]. simpl.
    intros p (a & b & _ & Hb & ? & _)%schedulable_keys b' Hb'.
    unfold burst_of in Hb'. congruence.
  - apply (bursts_of_input (λ b, b < sentinel) ps ps0 BL Hperm HBL).
    eapply Forall_impl; [done|]. simpl.
    intros p (a & b & _ & Hb & _ & ?)%schedulable_keys b' Hb'.
    unfold burst_of in Hb'. congruence.
Qed.

(** A returned result and the run behind it. *)
Lemma srtf_run fuel p ps recs aw at' g :
  srtf_scheduling fuel (p :: ps) = Ok (recs, aw, at', g) →
  ∃ ps0 AL BL T st,
    sort_by_arrival (alias <$> p :: ps) = Ok ps0 ∧
    comprehension (λ p, getitem p "burst") ps0 = Ok BL ∧
    Forall2 (λ p a, fields p !! "arrival" = Some a) ps0 AL ∧
    Forall2 (λ p b, fields p !! "burst" = Some b) ps0 BL ∧
    ps0 ≡ₚ alias <$> p :: ps ∧
    sumZ BL = total_burst (p :: ps) ∧
    max_arrival AL = latest_arrival (p :: ps) ∧
    Forall (λ b, 0 < b) BL ∧ Forall (λ b, b < sentinel) BL ∧
    inv ps0 AL BL T st ∧ (length ps0 ≤ completed st)%nat ∧
    recs = procs st ∧ g = gantt st ∧
    aw = truediv (sum_get "wt" recs) (length ps0) ∧
    at' = truediv (sum_get "tat" recs) (length ps0) ∧
    ∀ j, (j ≤ T)%nat →
         ∃ stj, iterate j (length ps0) (initial_state ps0 BL) = Ok stj ∧
                inv ps0 AL BL j stj ∧
                ((j < T)%nat → (completed stj < length ps0)%nat).
Proof.
  intros Hrun. pose proof (srtf_Ok_schedulable _ _ _ Hrun) as Hs.
  destruct (prelude_schedulable _ Hs)
    as (ps0 & AL & BL & Hsort & Hbursts & HAL & HBL & Hperm & Hsum & Hmax & Hpos & Hlt).
  rewrite (srtf_unfold fuel _ _ ps0 BL Hsort Hbursts) in Hrun.
  apply bind_Ok in Hrun as (st & Hloop & [= <- <- <- <-]).
  destruct (while_loop_run ps0 AL BL HAL HBL Hpos fuel 0 _ st
              (inv_initial ps0 AL BL HAL HBL Hpos) Hloop)
    as (T & _ & Hinv & Hdone & Htraj).
  exists ps0, AL, BL, T, st. split_and!; try done.
  intros j Hj. apply Htraj. lia.
Qed.

(** The records of a returned result, position by position. *)
Lemma srtf_run_records fuel p ps recs aw at' g :
  srtf_scheduling fuel (p :: ps) = Ok (recs, aw, at', g) →
  ∃ ps0,
    sort_by_arrival (alias <$> p :: ps) = Ok ps0 ∧
    ps0 ≡ₚ alias <$> p :: ps ∧
    length recs = length ps0 ∧
    ∀ i rec, recs !! i = Some rec →
      ∃ p0 a b (c : nat),
        ps0 !! i = Some p0 ∧
        fields p0 !! "arrival" = Some a ∧ fields p0 !! "burst" = Some b ∧
        0 < b ∧ b < sentinel ∧
        rec = finished p0 (Z.of_nat (S c)) a b ∧
        a + b ≤ Z.of_nat (S c) ∧ (S c ≤ length g)%nat ∧
        g !! c = Some (pid rec) ∧
        schedule_at (p :: ps) c = Ok (Some i) ∧
        ∀ j, (c < j < length g)%nat → schedule_at (p :: ps) j ≠ Ok (Some i).
Proof.
  intros Hrun.
  destruct (srtf_run _ _ _ _ _ _ _ Hrun)
    as (ps0 & AL & BL & k & st & Hsort & Hbursts & HAL & HBL & Hperm & _ & _ &
        Hpos & Hlt & Hinv & Hdone & -> & -> & _).
  assert (∀ j, schedule_at (p :: ps) j
               = selection (length ps0) (initial_state ps0 BL) j) as Hsched.
  { intros j. unfold schedule_at. rewrite Hsort. simpl. by rewrite Hbursts. }
  pose proof (inv_wf _ _ _ _ _ Hinv) as Hwf.
  exists ps0. split_and!; [done|done|apply Hwf|].
  intros i rec Hrec.
  destruct (job_lookup ps0 AL BL HAL HBL Hpos i)
    as (p0 & a & b & Hp0 & Ha & Hb & Hpa & Hpb & Hbpos).
  { rewrite <- (wf_procs _ _ Hwf). by eapply lookup_lt_Some. }
  destruct (inv_final ps0 AL BL k st i p0 a b Hinv Hdone Hp0 Ha Hb)
    as (c & Hfin & Hct & Hc & Hsel & Hlast).
  assert (rec = finished p0 (Z.of_nat (S c)) a b) as -> by congruence.
  exists p0, a, b, c. split_and!; try done.
  - by apply (Forall_lookup_1 _ _ _ _ Hlt Hb).
  - rewrite (inv_trace _ _ _ _ _ Hinv c (Some i));
      [|by rewrite <- (inv_gantt _ _ _ _ _ Hinv)|done].
    simpl. by rewrite Hp0.
  - by rewrite Hsched.
  - intros j Hj. rewrite Hsched. by apply Hlast.
Qed.

(** The entries of every returned record. *)
Lemma srtf_record_metrics fuel ps recs aw at' g :
  srtf_scheduling fuel ps = Ok (recs, aw, at', g) →
  Forall (λ rec, ∃ a b ct : Z,
            fields rec !! "arrival" = Some a ∧
            fields rec !! "burst" = Some b ∧
            fields rec !! "ct" = Some ct ∧
            fields rec !! "tat" = Some (ct - a) ∧
            fields rec !! "wt" = Some (ct - a - b) ∧
            0 ≤ ct - a - b ∧ 0 < b) recs.
Proof.
  intros Hrun. destruct ps as [|p ps].
  { injection Hrun as <- <- <- <-. constructor. }
  destruct (srtf_run_records _ _ _ _ _ _ _ Hrun) as (ps0 & _ & _ & _ & Hrecs).
  apply Forall_lookup. intros i rec Hrec.
  destruct (Hrecs i rec Hrec)
    as (p0 & a & b & c & _ & Ha & Hb & Hbpos & _ & -> & Hct & _).
  destruct (finished_fields p0 (Z.of_nat (S c)) a b Ha Hb _ eq_refl)
    as (_ & ? & ? & ? & ? & Hwt).
  exists a, b, (Z.of_nat (S c)). split_and!; try done; [|lia].
  rewrite Hwt. f_equal. lia.
Qed.

(** ** When the call returns, and after how many iterations *)


Section iterations.
Variables (ps0 : list proc) (AL BL : list Z).
Hypothesis HAL : Forall2 (λ p a, fields p !! "arrival" = Some a) ps0 AL.
Hypothesis HBL : Forall2 (λ p b, fields p !! "burst" = Some b) ps0 BL.
Hypothesis Hpos : Forall (λ b, 0 < b) BL.

(** The loop makes one iteration per trace entry: any fuel that covers
    the entries still to come gives the same final state, and less fuel
    does not. *)
Lemma while_loop_exact fuel k st st' :
  inv ps0 AL BL k st →
  while_loop fuel (length ps0) st = Ok st' →
  ∀ fuel',
    while_loop fuel' (length ps0) st =
    if bool_decide (length (gantt st') - k ≤ fuel')%nat then Ok st' else OutOfFuel.
Proof.
  revert k st. induction fuel as [|fuel IH]; intros k st Hinv; simpl;
    case_bool_decide as Hlt; try discriminate.
  - intros [= <-] fuel'. rewrite (inv_gantt _ _ _ _ _ Hinv).
    rewrite bool_decide_true by lia.
    destruct fuel'; simpl; by rewrite bool_decide_false.
  - intros (st1 & Hbody & Hloop)%bind_Ok fuel'.
    pose proof (inv_step ps0 AL BL HAL HBL Hpos k st st1 Hinv Hlt Hbody) as Hinv1.
    destruct (while_loop_run ps0 AL BL HAL HBL Hpos fuel (S k) st1 st' Hinv1 Hloop)
      as (T & HT & HinvT & _).
    pose proof (inv_gantt _ _ _ _ _ HinvT) as Hlen.
    destruct fuel' as [|fuel']; simpl; rewrite bool_decide_true by done.
    + rewrite bool_decide_false; [done|lia].
    + rewrite Hbody. simpl. rewrite (IH (S k) st1 Hinv1 Hloop fuel').
      by rewrite (bool_decide_ext (length (gantt st') - S k ≤ fuel')%nat
                   (length (gantt st') - k ≤ S fuel')%nat) by lia.
  - intros [= <-] fuel'. rewrite (inv_gantt _ _ _ _ _ Hinv).
    rewrite bool_decide_true by lia.
    destruct fuel'; simpl; by rewrite bool_decide_false.
Qed.
End iterations.

Lemma srtf_iterations fuel ps recs aw at' g fuel' :
  srtf_scheduling fuel ps = Ok (recs, aw, at', g) →
  srtf_scheduling fuel' ps =
  if bool_decide (length g ≤ fuel')%nat then Ok (recs, aw, at', g) else OutOfFuel.
Proof.
  intros Hrun. destruct ps as [|p ps].
  { injection Hrun as <- <- <- <-. by rewrite bool_decide_true by (simpl; lia). }
  pose proof (srtf_Ok_schedulable _ _ _ Hrun) as Hs.
  destruct (prelude_schedulable _ Hs)
    as (ps0 & AL & BL & Hsort & Hbursts & HAL & HBL & _ & _ & _ & Hpos & _).
  rewrite (srtf_unfold fuel _ _ ps0 BL Hsort Hbursts) in Hrun.
  apply bind_Ok in Hrun as (st & Hloop & [= <- <- <- <-]).
  rewrite (srtf_unfold fuel' _ _ ps0 BL Hsort Hbursts).
  rewrite (while_loop_exact ps0 AL BL HAL HBL Hpos fuel 0 _ st
             (inv_initial ps0 AL BL HAL HBL Hpos) Hloop fuel').
  rewrite Nat.sub_0_r. by case_bool_decide.
Qed.

Lemma srtf_trace_at_most fuel ps recs aw at' g :
  srtf_scheduling fuel ps = Ok (recs, aw, at', g) →
  Z.of_nat (length g) ≤ total_burst ps + latest_arrival ps.
Proof.
  intros Hrun. destruct ps as [|p ps].
  { injection Hrun as <- <- <- <-. unfold total_burst, latest_arrival. simpl. lia. }
  destruct (srtf_run _ _ _ _ _ _ _ Hrun)
    as (ps0 & AL & BL & T & st & _ & _ & HAL & HBL & _ & Hsum & Hmax & Hpos &
        Hlt & Hinv & Hdone & _ & -> & _).
  pose proof (inv_bound _ _ _ _ _ Hinv Hlt) as Hb.
  rewrite (inv_final_sum ps0 AL BL T st Hinv Hdone) in Hb.
  rewrite (inv_gantt _ _ _ _ _ Hinv). lia.
Qed.


(** X8. A returned trace has at most (sum of bursts + latest arrival)
    entries, the latest arrival counted as 0 when all are negative, and
    the loop makes exactly one iteration per entry: the same result comes
    back under any bound on the iterations that is at least the length
    of the trace, and none under a smaller bound. *)
Theorem trace_length_iterations fuel ps recs aw at' g :
  srtf_scheduling fuel ps = Ok (recs, aw, at', g) →
  Z.of_nat (length g) ≤ total_burst ps + latest_arrival ps ∧
  0 ≤ latest_arrival ps ∧
  ∀ fuel',
    srtf_scheduling fuel' ps =
    if bool_decide (length g ≤ fuel')%nat then Ok (recs, aw, at', g) else OutOfFuel.
Proof.
  intros Hrun. split_and!.
  - by eapply srtf_trace_at_most.
  - apply max_arrival_nonneg.
  - intros fuel'. by eapply srtf_iterations.
Qed.

Lemma trace_length_iterations_witness :
  Z.of_nat (length ["P2"; "P1"; "P1"; "P1"]%string)
  ≤ total_burst [descriptor "P2" 0 1; descriptor "P1" (-2) 3]
    + latest_arrival [descriptor "P2" 0 1; descriptor "P1" (-2) 3] ∧
  0 ≤ latest_arrival [descriptor "P2" 0 1; descriptor "P1" (-2) 3] ∧
  ∀ fuel',
    srtf_scheduling fuel' [descriptor "P2" 0 1; descriptor "P1" (-2) 3] =
    if bool_decide (length ["P2"; "P1"; "P1"; "P1"]%string ≤ fuel')%nat
    then Ok ([record "P1" (-2) 3 4 6 3; record "P2" 0 1 1 1 0],
             truediv 3 2, truediv 7 2, ["P2"; "P1"; "P1"; "P1"]%string)
    else OutOfFuel.
Proof.
  apply (trace_length_iterations 4). vm_compute. reflexivity.
Defined.

(** ** The rule of selection along a returned run *)

Section pids.
Variables (ps0 : list proc) (AL BL : list Z).
Hypothesis HAL : Forall2 (λ p a, fields p !! "arrival" = Some a) ps0 AL.
Hypothesis HBL : Forall2 (λ p b, fields p !! "burst" = Some b) ps0 BL.
Hypothesis Hpos : Forall (λ b, 0 < b) BL.

(** The records keep the pids of the sorted descriptors. *)
Lemma inv_pid k st i :
  inv ps0 AL BL k st → pid <$> procs st !! i = pid <$> ps0 !! i.
Proof.
  intros Hinv. pose proof (inv_wf _ _ _ _ _ Hinv) as Hwf.
  destruct (decide (i < length ps0)%nat) as [Hi|Hi].
  - destruct (job_lookup ps0 AL BL HAL HBL Hpos i Hi)
      as (p0 & a & b & Hp0 & Ha & Hb & _).
    destruct (inv_proc _ _ _ _ _ Hinv i p0 a b Hp0 Ha Hb) as (r & _ & _ & _ & Hr).
    rewrite Hp0. case_bool_decide.
    + destruct Hr as (c & _ & _ & -> & _). done.
    + by rewrite Hr.
  - rewrite (lookup_ge_None_2 ps0) by lia.
    rewrite (lookup_ge_None_2 (procs st)); [done|].
    rewrite (wf_procs _ _ Hwf). lia.
Qed.

(** The units left of a process never exceed its burst. *)
Lemma inv_remaining_le k st i r :
  inv ps0 AL BL k st → remaining st !! i = Some r →
  ∃ b, BL !! i = Some b ∧ 0 ≤ r ≤ b.
Proof.
  intros Hinv Hr. pose proof (inv_wf _ _ _ _ _ Hinv) as Hwf.
  destruct (job_lookup ps0 AL BL HAL HBL Hpos i)
    as (p0 & a & b & Hp0 & Ha & Hb & _).
  { rewrite <- (wf_remaining _ _ Hwf). by eapply lookup_lt_Some. }
  destruct (inv_proc _ _ _ _ _ Hinv i p0 a b Hp0 Ha Hb) as (r' & Hr' & ? & _).
  exists b. split; [done|]. congruence.
Qed.
End pids.

(** The tick [c] of a returned run: the state it starts from, the index
    its scan selects, and the entry it appends. *)
Lemma srtf_tick fuel p ps recs aw at' g c :
  srtf_scheduling fuel (p :: ps) = Ok (recs, aw, at', g) → (c < length g)%nat →
  ∃ ps0 AL BL st acc,
    Forall2 (λ p b, fields p !! "burst" = Some b) ps0 BL ∧
    Forall (λ b, b < sentinel) BL ∧
    state_at (p :: ps) c = Ok st ∧ inv ps0 AL BL c st ∧
    scan (length ps0) st = Ok acc ∧ scan_post st (length ps0) acc ∧
    schedule_at (p :: ps) c = Ok acc.1 ∧
    g !! c = label recs acc.1 ∧
    (∀ i r, remaining st !! i = Some r → r < sentinel).
Proof.
  intros Hrun Hc.
  destruct (srtf_run _ _ _ _ _ _ _ Hrun)
    as (ps0 & AL & BL & T & stT & Hsort & Hbursts & HAL & HBL & _ & _ & _ &
        Hpos & Hlt & Hinv & _ & -> & -> & _ & _ & Htraj).
  rewrite (inv_gantt _ _ _ _ _ Hinv) in Hc.
  destruct (Htraj c) as (st & Hiter & Hinvc & _); [lia|].
  destruct (scan_Ok (length ps0) st (inv_wf _ _ _ _ _ Hinvc)) as (acc & Hscan & Hpost).
  assert (selection (length ps0) (initial_state ps0 BL) c = Ok acc.1) as Hsel.
  { unfold selection. rewrite Hiter. simpl. by rewrite Hscan. }
  exists ps0, AL, BL, st, acc. split_and!; try done.
  - unfold state_at. rewrite Hsort. simpl. by rewrite Hbursts.
  - unfold schedule_at. rewrite Hsort. simpl. by rewrite Hbursts.
  - rewrite (inv_trace _ _ _ _ _ Hinv c acc.1 Hc Hsel).
    destruct acc.1 as [i|]; [|done]. simpl.
    symmetry. by apply (inv_pid ps0 AL BL HAL HBL Hpos T).
  - intros i r Hr.
    destruct (inv_remaining_le ps0 AL BL HAL HBL Hpos c st i r Hinvc Hr)
      as (b & Hb & ?).
    pose proof (Forall_lookup_1 _ _ _ _ Hlt Hb). simpl in *. lia.
Qed.

(** X9. At every tick [c] of a returned run, with [st] the state the
    iteration starts from ([t = c]): if the trace entry is the idle
    marker appended by the idle branch, no process has arrived with units
    left; otherwise the executing process has arrived, has the least
    number of units left among those that have, and comes first in the
    sorted order among those with that number; the trace entry is its
    pid.  On a returned run the sentinel never hides a process. *)
Theorem shortest_remaining_first fuel ps recs aw at' g c :
  srtf_scheduling fuel ps = Ok (recs, aw, at', g) → (c < length g)%nat →
  ∃ st sel,
    state_at ps c = Ok st ∧ schedule_at ps c = Ok sel ∧
    t st = Z.of_nat c ∧ g !! c = label recs sel ∧
    match sel with
    | None => ∀ j r, ¬ runnable st j r
    | Some i =>
        ∃ r, runnable st i r ∧
             (∀ j r', runnable st j r' → r ≤ r') ∧
             (∀ j r', (j < i)%nat → runnable st j r' → r < r')
    end.
Proof.
  intros Hrun Hc. destruct ps as [|p ps].
  { injection Hrun as <- <- <- <-. simpl in Hc. lia. }
  destruct (srtf_tick _ _ _ _ _ _ _ _ Hrun Hc)
    as (ps0 & AL & BL & st & [sel m] & HBL & Hlt & Hst & Hinv & Hscan & Hpost &
        Hsched & Hg & Hrem).
  pose proof (inv_wf _ _ _ _ _ Hinv) as Hwf.
  exists st, sel. split_and!; try done; [apply Hinv|].
  unfold scan_post in Hpost. simpl in Hpost. destruct sel as [i|].
  - destruct Hpost as (_ & Hi & _ & Hmin & Hfirst). exists m.
    split_and!; [done| |done].
    intros j r' Hj. apply (Hmin j r'); [by eapply runnable_lt|done].
  - destruct Hpost as [_ Hnone]. intros j r Hj.
    pose proof (Hnone j r (runnable_lt _ _ _ _ Hwf Hj) Hj).
    destruct Hj as (? & ? & _ & _ & Hr & _). specialize (Hrem j r Hr). lia.
Qed.

Lemma shortest_remaining_first_witness :
  ∃ st sel,
    state_at [descriptor "P1" 0 8; descriptor "P2" 1 4] 1 = Ok st ∧
    schedule_at [descriptor "P1" 0 8; descriptor "P2" 1 4] 1 = Ok sel ∧
    t st = Z.of_nat 1 ∧
    ["P1"; "P2"; "P2"; "P2"; "P2"; "P1"; "P1"; "P1"; "P1"; "P1"; "P1"; "P1"]%string
      !! 1%nat
    = label [record "P1" 0 8 12 12 4; record "P2" 1 4 5 4 0] sel ∧
    match sel with
    | None => ∀ j r, ¬ runnable st j r
    | Some i =>
        ∃ r, runnable st i r ∧
             (∀ j r', runnable st j r' → r ≤ r') ∧
             (∀ j r', (j < i)%nat → runnable st j r' → r < r')
    end.
Proof.
  apply (shortest_remaining_first 12 [descriptor "P1" 0 8; descriptor "P2" 1 4]
           [record "P1" 0 8 12 12 4; record "P2" 1 4 5 4 0]
           (truediv 4 2) (truediv 16 2)
           ["P1"; "P2"; "P2"; "P2"; "P2"; "P1"; "P1"; "P1"; "P1"; "P1"; "P1"; "P1"]%string
           1).
  - vm_compute. reflexivity.
  - simpl. lia.
Defined.

(** * Further properties *)

(** ** color_for_pid *)






(** ** The chart *)

Lemma per_unit_list_expand (segments : list (string * nat * nat)) :
  per_unit_list segments = expand segments.
Proof.
  unfold per_unit_list.
  assert (∀ acc, foldl (λ acc (s : string * nat * nat), acc ++ replicate s.2 s.1.1)
                   acc segments = acc ++ expand segments) as H.
  { induction segments as [|s segments IH]; intros acc; simpl.
    - by rewrite app_nil_r.
    - rewrite IH, expand_cons. by rewrite <- app_assoc. }
  apply (H []).
Qed.

Lemma total_units_expand (segments : list (string * nat * nat)) :
  total_units segments = length (expand segments).
Proof.
  induction segments as [|s segments IH]; [done|].
  rewrite expand_cons, length_app, length_replicate. simpl. by rewrite IH.
Qed.

Lemma expand_labels (segments : list (string * nat * nat)) (x : string) :
  x ∈ expand segments → x ∈ (λ s : string * nat * nat, s.1.1) <$> segments.
Proof.
  induction segments as [|s segments IH]; [by intros ?%elem_of_nil|].
  rewrite expand_cons, elem_of_app, fmap_cons, elem_of_cons. intros [Hx|Hx].
  - left. by apply elem_of_replicate_inv in Hx.
  - right. by apply IH.
Qed.

Lemma color_map_fold hash (segments : list (string * nat * nat))
    (cm : gmap string string) (pid : string) :
  foldl (color_map_step hash) cm segments !! pid =
  match cm !! pid with
  | Some c => Some c
  | None =>
      if bool_decide (pid ≠ "Idle"%string) &&
         bool_decide (pid ∈ (λ s : string * nat * nat, s.1.1) <$> segments)
      then Some (color_for_pid hash pid) else None
  end.
Proof.
  revert cm. induction segments as [|s segments IH]; intros cm.
  - simpl. destruct (cm !! pid); [done|].
    by rewrite andb_false_r.
  - rewrite fmap_cons. cbn [foldl]. rewrite IH. unfold color_map_step.
    destruct (decide (s.1.1 = pid)) as [Hs|Hs].
    + rewrite Hs. rewrite (bool_decide_true (pid ∈ pid :: _)) by left.
      rewrite andb_true_r.
      destruct (cm !! pid) as [c|] eqn:Hcm.
      * rewrite (bool_decide_false (_ = None)) by done.
        rewrite andb_false_r. by rewrite Hcm.
      * rewrite (bool_decide_true (None = None)) by done. rewrite andb_true_r.
        case_bool_decide as Hidle.
        -- by rewrite lookup_insert_eq.
        -- by rewrite Hcm.
    + assert ((if bool_decide (s.1.1 ≠ "Idle"%string) &&
                  bool_decide (cm !! s.1.1 = None)
               then <[s.1.1 := color_for_pid hash s.1.1]> cm else cm) !! pid
              = cm !! pid) as ->.
      { clear IH. destruct (_ && _); [|done]. by rewrite lookup_insert_ne. }
      destruct (cm !! pid); [done|].
      rewrite (bool_decide_ext (pid ∈ s.1.1 :: _) (pid ∈ (λ s, s.1.1) <$> segments));
        [done|].
      rewrite elem_of_cons. split; [by intros [->|?] | by right].
Qed.

Lemma color_map_lookup hash (segments : list (string * nat * nat)) (pid : string) :
  pid ∈ (λ s : string * nat * nat, s.1.1) <$> segments →
  color_map hash segments !! pid =
  Some (if bool_decide (pid = "Idle"%string)
        then "#d6dde0"%string else color_for_pid hash pid).
Proof.
  intros Hin. unfold color_map. rewrite color_map_fold.
  destruct (decide (pid = "Idle"%string)) as [->|Hidle].
  - by rewrite lookup_singleton_eq.
  - rewrite lookup_singleton_ne by done.
    rewrite (bool_decide_false (pid = _)) by done.
    by rewrite !bool_decide_true.
Qed.

Lemma animate_blocks hash (segments : list (string * nat * nat))
    (l : list string) (i calls : nat) :
  (∀ pid, pid ∈ l → pid ∈ (λ s : string * nat * nat, s.1.1) <$> segments) →
  animate calls (AnimState l (color_map hash segments) i)
  = take calls (block_of hash <$> drop i l).
Proof.
  intros Hl. revert i. induction calls as [|calls IH]; intros i; [done|].
  simpl. unfold animate_step. simpl.
  destruct (l !! i) as [pid|] eqn:Hi.
  - rewrite (drop_S _ _ _ Hi), fmap_cons. simpl. rewrite <- IH.
    rewrite color_map_lookup by (apply Hl; by eapply list_elem_of_lookup_2).
    done.
  - by rewrite (drop_ge l i) by (by apply lookup_ge_None).
Qed.

Lemma build_segments_id (gantt : list string) :
  expand (build_segments gantt) = gantt.
Proof.
  destruct gantt as [|cur l]; [done|]. simpl.
  by destruct (build_loop_spec l 1 cur 0 1) as (He & _); [lia..|].
Qed.

Lemma draw_gantt_trace hash (gantt : list string) :
  draw_gantt hash (build_segments gantt)
  = match gantt with
    | [] => None
    | _ :: _ => Some (AnimState gantt (color_map hash (build_segments gantt)) 0)
    end.
Proof.
  unfold draw_gantt.
  rewrite total_units_expand, per_unit_list_expand, build_segments_id.
  by destruct gantt.
Qed.

(** X2. The chart of a trace: for the empty trace nothing is set up;
    otherwise the animation state holds the trace itself, and the timer
    calls draw its entries in order, one block per tick, "Idle" in the
    colour "#d6dde0" with dark text and every pid in its
    [color_for_pid] colour with white text.  The fallback colour of
    [_animate_step] is never needed, and the animation stops after as
    many blocks as the trace has ticks. *)
Theorem chart_blocks (hash : string → Z) (gantt : list string) (calls : nat) :
  draw_gantt hash (build_segments gantt)
  = match gantt with
    | [] => None
    | _ :: _ => Some (AnimState gantt (color_map hash (build_segments gantt)) 0)
    end ∧
  total_units (build_segments gantt) = length gantt ∧
  animate calls (AnimState gantt (color_map hash (build_segments gantt)) 0)
  = take calls (block_of hash <$> gantt).
Proof.
  split_and!.
  - apply draw_gantt_trace.
  - by rewrite total_units_expand, build_segments_id.
  - rewrite animate_blocks; [done|]. intros pid Hpid.
    apply expand_labels. by rewrite build_segments_id.
Qed.

(** ** build_segments, the other way round *)

Lemma build_loop_expand (rest : list (string * nat * nat)) :
  ∀ (m : nat) (cur : string) (start len i : nat),
    i = (start + len)%nat →
    chained (start + len + m) rest →
    match rest with [] => True | s' :: _ => cur ≠ s'.1.1 end →
    build_loop (replicate m cur ++ expand rest) i [] cur start len
    = (cur, start, (len + m)%nat) :: rest.
Proof.
  induction rest as [|s' rest IH]; intros m.
  - induction m as [|m IHm]; intros cur start len i Hi _ _; simpl.
    + by rewrite Nat.add_0_r.
    + rewrite decide_True by done.
      rewrite (IHm cur start (S len) (S i)) by (done || lia).
      do 2 f_equal. lia.
  - induction m as [|m IHm]; intros cur start len i Hi Hc Hne.
    + destruct s' as [[x st] n]. destruct Hc as (Hst & Hn & Hne' & Hc).
      simpl in *. destruct n as [|n]; [lia|].
      rewrite expand_cons. simpl. rewrite decide_False by done.
      rewrite build_loop_acc. simpl.
      rewrite (IH n x i 1%nat (S i)); [|lia| |done].
      * subst st i. by rewrite !Nat.add_0_r.
      * replace (i + 1 + n)%nat with (start + len + 0 + S n)%nat by lia. done.
    + simpl. rewrite decide_True by done.
      rewrite (IHm cur start (S len) (S i)); [|lia| |done].
      * do 2 f_equal. lia.
      * replace (start + S len + m)%nat with (start + len + S m)%nat by lia. done.
Qed.

(** X3. [build_segments] inverts the expansion of any list of segments
    that start at tick 0, follow one another without gap, have positive
    lengths and differ in label from their neighbours: compressing the
    expanded form gives the same segments back, so the segments of a
    trace are the only such list that expands to it. *)
Theorem build_segments_expand (segments : list (string * nat * nat)) :
  chained 0 segments → build_segments (expand segments) = segments.
Proof.
  destruct segments as [|[[x st] n] rest]; [done|].
  intros (Hst & Hn & Hne & Hc). simpl in *. subst st.
  destruct n as [|n]; [lia|]. rewrite expand_cons. simpl.
  rewrite (build_loop_expand rest n x 0 1 1); done.
Qed.

Lemma build_segments_expand_witness :
  chained 0 [("P1"%string, 0, 2); ("Idle"%string, 2, 1); ("P2"%string, 3, 3)]%nat ∧
  build_segments
    (expand [("P1"%string, 0, 2); ("Idle"%string, 2, 1); ("P2"%string, 3, 3)]%nat)
  = [("P1"%string, 0, 2); ("Idle"%string, 2, 1); ("P2"%string, 3, 3)]%nat.
Proof.
  assert (chained 0
            [("P1"%string, 0, 2); ("Idle"%string, 2, 1); ("P2"%string, 3, 3)]%nat)
    as Hc by (simpl; repeat split; (lia || discriminate)).
  split; [done|]. exact (build_segments_expand _ Hc).
Defined.

(** ** on_calculate *)

(** The table row of a returned record. *)
Lemma stats_row_finished p0 c a b :
  fields p0 !! "arrival" = Some a → fields p0 !! "burst" = Some b →
  a + b ≤ c →
  stats_row (finished p0 c a b) = Ok (pid p0, a, b, c, c - a, c - a - b).
Proof.
  intros Ha Hb Hle.
  destruct (finished_fields p0 c a b Ha Hb _ eq_refl)
    as (Hpid & Ha' & Hb' & Hct & Htat & Hwt).
  unfold stats_row, getitem. rewrite Ha', Hb', Hct, Htat, Hwt, Hpid. simpl.
  do 2 f_equal. lia.
Qed.

Lemma comprehension_total {A B : Type} (f : A → outcome B) (g : A → B) (l : list A) :
  Forall (λ x, f x = Ok (g x)) l → comprehension f l = Ok (g <$> l).
Proof.
  induction 1 as [|x l Hx _ IH]; [done|].
  rewrite fmap_cons. cbn [comprehension]. rewrite Hx. simpl. by rewrite IH.
Qed.

Lemma srtf_rows fuel p ps recs aw at' g :
  srtf_scheduling fuel (p :: ps) = Ok (recs, aw, at', g) →
  g ≠ [] ∧
  Forall (λ rec, ∃ a b ct,
            fields rec !! "arrival" = Some a ∧ fields rec !! "burst" = Some b ∧
            fields rec !! "ct" = Some ct ∧
            stats_row rec = Ok (pid rec, a, b, ct, ct - a, ct - a - b)) recs.
Proof.
  intros Hrun.
  destruct (srtf_run_records _ _ _ _ _ _ _ Hrun) as (ps0 & _ & Hperm & Hlen & Hrecs).
  split.
  - destruct recs as [|rec recs].
    { rewrite Hperm, length_fmap in Hlen. done. }
    destruct (Hrecs 0%nat rec eq_refl) as (_ & _ & _ & c & _ & _ & _ & _ & _ & _ & _ & Hc & _).
    intros ->. simpl in Hc. lia.
  - apply Forall_lookup. intros i rec Hrec.
    destruct (Hrecs i rec Hrec)
      as (p0 & a & b & c & _ & Ha & Hb & _ & _ & -> & Hct & _).
    destruct (finished_fields p0 (Z.of_nat (S c)) a b Ha Hb _ eq_refl)
      as (Hpid & ? & ? & ? & _).
    exists a, b, (Z.of_nat (S c)). split_and!; try done.
    rewrite Hpid. by apply stats_row_finished.
Qed.

Lemma on_calculate_Ok hash fuel p ps recs aw at' g :
  srtf_scheduling fuel (p :: ps) = Ok (recs, aw, at', g) →
  on_calculate hash fuel (p :: ps)
  = Ok (Shown (row_of <$> recs) aw at' (pid <$> recs)
          (Some (AnimState g (color_map hash (build_segments g)) 0))).
Proof.
  intros Hrun. destruct (srtf_rows _ _ _ _ _ _ _ Hrun) as [Hg Hrows].
  unfold on_calculate. rewrite Hrun. simpl.
  rewrite (comprehension_total stats_row row_of recs).
  - simpl. rewrite draw_gantt_trace. by destruct g.
  - eapply Forall_impl; [done|]. simpl.
    intros rec (a & b & ct & Ha & Hb & Hct & ->).
    unfold row_of, get_default. by rewrite Ha, Hb, Hct.
Qed.

(** X10. When the scheduler returns for the processes entered,
    [on_calculate] shows one table row per record, in the order of the
    records, holding pid, arrival, burst, ct, ct - arrival and
    ct - arrival - burst; the two averages as returned; the pids in the
    dropdown; and it always starts the chart animation on the returned
    trace, which is never empty.  Reading the five keys of a record on
    line 234 never raises. *)
Theorem on_calculate_shown hash fuel ps recs aw at' g :
  ps ≠ [] →
  srtf_scheduling fuel ps = Ok (recs, aw, at', g) →
  on_calculate hash fuel ps
  = Ok (Shown (row_of <$> recs) aw at' (pid <$> recs)
          (Some (AnimState g (color_map hash (build_segments g)) 0))) ∧
  length recs = length ps ∧ g ≠ [].
Proof.
  intros Hne Hrun. destruct ps as [|p ps]; [done|].
  split_and!.
  - by apply on_calculate_Ok.
  - destruct (srtf_run_records _ _ _ _ _ _ _ Hrun) as (ps0 & _ & Hperm & Hlen & _).
    by rewrite Hlen, Hperm, length_fmap.
  - by destruct (srtf_rows _ _ _ _ _ _ _ Hrun).
Qed.

Lemma on_calculate_shown_witness :
  [descriptor "P1" 0 8; descriptor "P2" 1 4] ≠ [] ∧
  ∀ hash,
    on_calculate hash 12 [descriptor "P1" 0 8; descriptor "P2" 1 4]
    = Ok (Shown (row_of <$> [record "P1" 0 8 12 12 4; record "P2" 1 4 5 4 0])
            (truediv 4 2) (truediv 16 2)
            (pid <$> [record "P1" 0 8 12 12 4; record "P2" 1 4 5 4 0])
            (Some (AnimState
               ["P1"; "P2"; "P2"; "P2"; "P2"; "P1"; "P1"; "P1"; "P1"; "P1"; "P1"; "P1"]%string
               (color_map hash (build_segments
                  ["P1"; "P2"; "P2"; "P2"; "P2"; "P1"; "P1"; "P1"; "P1"; "P1"; "P1"; "P1"]%string))
               0))).
Proof.
  split; [done|]. intros hash.
  apply (on_calculate_shown hash 12 [descriptor "P1" 0 8; descriptor "P2" 1 4]);
    [done | vm_compute; reflexivity].
Defined.

(** X11. [on_calculate] adds no failure of its own: it raises exactly
    the errors [srtf_scheduling] raises on the same processes, and with
    no process at all it shows the warning and returns. *)
Theorem on_calculate_raises hash fuel ps e :
  on_calculate hash fuel [] = Ok NoData ∧
  (on_calculate hash fuel ps = Raise e ↔ srtf_scheduling fuel ps = Raise e).
Proof.
  split; [done|]. destruct ps as [|p ps]; [done|].
  destruct (srtf_scheduling fuel (p :: ps)) as [[[[recs aw] at'] g]| |] eqn:Hrun.
  - by rewrite (on_calculate_Ok hash _ _ _ _ _ _ _ Hrun).
  - unfold on_calculate. rewrite Hrun. simpl. split; by intros [= ->].
  - unfold on_calculate. rewrite Hrun. by simpl.
Qed.

(** ** Totals and averages *)







(** ** Ticks given to each process *)

Section ticks.
Variables (ps0 : list proc) (AL BL : list Z) (T : nat).
Hypothesis Htraj : ∀ j, (j ≤ T)%nat →
  ∃ stj, iterate j (length ps0) (initial_state ps0 BL) = Ok stj ∧
         inv ps0 AL BL j stj ∧ ((j < T)%nat → (completed stj < length ps0)%nat).

(** After [k] iterations a process has been given as many ticks as its
    burst has lost units. *)
Lemma ticks_remaining i b k :
  BL !! i = Some b → (k ≤ T)%nat →
  ∃ st r, iterate k (length ps0) (initial_state ps0 BL) = Ok st ∧
          remaining st !! i = Some r ∧
          Z.of_nat (count_ticks (selection (length ps0) (initial_state ps0 BL)) i k)
          = b - r.
Proof.
  intros Hb. induction k as [|k IH]; intros Hk.
  - exists (initial_state ps0 BL), b. split_and!; [done|done|simpl; lia].
  - destruct IH as (st & r & Hiter & Hr & Hcount); [lia|].
    destruct (Htraj k) as (st' & Hiter' & Hinv & _); [lia|].
    assert (st' = st) as -> by congruence.
    destruct (loop_body_step (length ps0) st (inv_wf _ _ _ _ _ Hinv))
      as ([sel m] & st1 & Hscan & Hbody & Hstep).
    assert (selection (length ps0) (initial_state ps0 BL) k = Ok sel) as Hsel.
    { unfold selection. rewrite Hiter. simpl. by rewrite Hscan. }
    assert (iterate (S k) (length ps0) (initial_state ps0 BL) = Ok st1) as Hiter1.
    { rewrite iterate_S_r, Hiter. done. }
    cbn [count_ticks]. rewrite Hsel. simpl in Hstep.
    inversion Hstep as [Hnone Hsel' Hst1|i' p a b' r' Hp Ha Hb' Hr' Hat Hpos' Hlt'
                                          Hmin Hfirst Hsel' Hst1]; subst sel.
    + exists (idle_state st), r. split_and!; [congruence|done|lia].
    + destruct (decide (i' = i)) as [->|Hne].
      * exists (run_state st i p a b' r'), (r' - 1). split_and!; [congruence| |].
        -- simpl. apply list_lookup_insert_eq. by eapply lookup_lt_Some.
        -- assert (r' = r) by congruence. lia.
      * exists (run_state st i' p a b' r'), r. split_and!; [congruence| |lia].
        simpl. by rewrite list_lookup_insert_ne.
Qed.
End ticks.

Lemma count_ticks_ext (sel sel' : nat → outcome (option nat)) i k :
  (∀ j, sel j = sel' j) → count_ticks sel i k = count_ticks sel' i k.
Proof. intros Heq. induction k as [|k IH]; simpl; [done|]. by rewrite IH, Heq. Qed.

Lemma srtf_ticks fuel p ps recs aw at' g i rec :
  srtf_scheduling fuel (p :: ps) = Ok (recs, aw, at', g) →
  recs !! i = Some rec →
  ∃ b, fields rec !! "burst" = Some b ∧
       Z.of_nat (ticks_of (p :: ps) i (length g)) = b.
Proof.
  intros Hrun Hrec.
  destruct (srtf_run _ _ _ _ _ _ _ Hrun)
    as (ps0 & AL & BL & T & st & Hsort & Hbursts & HAL & HBL & _ & _ & _ &
        Hpos & _ & Hinv & Hdone & -> & -> & _ & _ & Htraj).
  pose proof (inv_wf _ _ _ _ _ Hinv) as Hwf.
  destruct (job_lookup ps0 AL BL HAL HBL Hpos i)
    as (p0 & a & b & Hp0 & Ha & Hb & Hpa & Hpb & _).
  { rewrite <- (wf_procs _ _ Hwf). by eapply lookup_lt_Some. }
  destruct (inv_final ps0 AL BL T st i p0 a b Hinv Hdone Hp0 Ha Hb)
    as (c & Hfin & _).
  assert (rec = finished p0 (Z.of_nat (S c)) a b) as -> by congruence.
  destruct (finished_fields p0 (Z.of_nat (S c)) a b Hpa Hpb _ eq_refl)
    as (_ & _ & Hb' & _).
  exists b. split; [done|].
  destruct (ticks_remaining ps0 AL BL T Htraj i b T Hb) as (st' & r & Hiter & Hr & Hcount);
    [lia|].
  assert (st' = st) as -> by (pose proof (inv_reach _ _ _ _ _ Hinv); congruence).
  assert (r = 0) as ->.
  { eapply count_zero_all; [|done].
    rewrite <- (inv_completed _ _ _ _ _ Hinv).
    by rewrite (wf_remaining _ _ Hwf). }
  rewrite (inv_gantt _ _ _ _ _ Hinv). unfold ticks_of.
  rewrite (count_ticks_ext _ (selection (length ps0) (initial_state ps0 BL))); [lia|].
  intros j. unfold schedule_at. rewrite Hsort. simpl. by rewrite Hbursts.
Qed.

(** X13. In a returned run every process executes for exactly its burst:
    the number of ticks of the trace at which the scan selects the
    process at position [i] of the returned list equals the burst entry
    of the record at that position. *)
Theorem executes_burst_ticks fuel ps recs aw at' g i rec :
  srtf_scheduling fuel ps = Ok (recs, aw, at', g) →
  recs !! i = Some rec →
  ∃ b, fields rec !! "burst" = Some b ∧
       Z.of_nat (ticks_of ps i (length g)) = b.
Proof.
  intros Hrun Hrec. destruct ps as [|p ps].
  { injection Hrun as <- <- <- <-. done. }
  by eapply srtf_ticks.
Qed.

Lemma executes_burst_ticks_witness :
  ∃ b, fields (record "P2" 1 4 5 4 0) !! "burst" = Some b ∧
       Z.of_nat (ticks_of [descriptor "P1" 0 8; descriptor "P2" 1 4] 1
                   (length ["P1"; "P2"; "P2"; "P2"; "P2"; "P1"; "P1"; "P1";
                            "P1"; "P1"; "P1"; "P1"]%string)) = b.
Proof.
  apply (executes_burst_ticks 12 [descriptor "P1" 0 8; descriptor "P2" 1 4]
           [record "P1" 0 8 12 12 4; record "P2" 1 4 5 4 0]
           (truediv 4 2) (truediv 16 2)
           ["P1"; "P2"; "P2"; "P2"; "P2"; "P1"; "P1"; "P1"; "P1"; "P1"; "P1"; "P1"]%string
           1).
  - vm_compute. reflexivity.
  - reflexivity.
Defined.

(** ** Metrics of the returned records *)

(** X6. Whenever the call returns, whatever the input, there is one
    record per descriptor and every record has tat = ct - arrival and
    wt = tat - burst with wt >= 0 and burst > 0: the clamp of lines 61-62
    never changes a value. *)
Theorem returned_metrics fuel ps recs aw at' g :
  srtf_scheduling fuel ps = Ok (recs, aw, at', g) →
  length recs = length ps ∧
  Forall (λ rec, ∃ a b ct : Z,
            fields rec !! "arrival" = Some a ∧
            fields rec !! "burst" = Some b ∧
            fields rec !! "ct" = Some ct ∧
            fields rec !! "tat" = Some (ct - a) ∧
            fields rec !! "wt" = Some (ct - a - b) ∧
            0 ≤ ct - a - b ∧ 0 < b) recs.
Proof.
  intros Hrun. split; [|by eapply srtf_record_metrics].
  destruct ps as [|p ps].
  { by injection Hrun as <- <- <- <-. }
  destruct (srtf_run_records _ _ _ _ _ _ _ Hrun) as (ps0 & _ & Hperm & Hlen & _).
  by rewrite Hlen, Hperm, length_fmap.
Qed.

Lemma returned_metrics_witness :
  length [record "P1" (-2) 3 4 6 3; record "P2" 0 1 1 1 0] = 2%nat ∧
  Forall (λ rec, ∃ a b ct : Z,
            fields rec !! "arrival" = Some a ∧
            fields rec !! "burst" = Some b ∧
            fields rec !! "ct" = Some ct ∧
            fields rec !! "tat" = Some (ct - a) ∧
            fields rec !! "wt" = Some (ct - a - b) ∧
            0 ≤ ct - a - b ∧ 0 < b)
    [record "P1" (-2) 3 4 6 3; record "P2" 0 1 1 1 0].
Proof.
  apply (returned_metrics 4 [descriptor "P2" 0 1; descriptor "P1" (-2) 3]
           [record "P1" (-2) 3 4 6 3; record "P2" 0 1 1 1 0]
           (truediv 3 2) (truediv 7 2) ["P2"; "P1"; "P1"; "P1"]%string).
  vm_compute. reflexivity.
Defined.

(** ** The returned records and the descriptors *)

Lemma finished_other p c a b k :
  k ≠ "ct"%string → k ≠ "tat"%string → k ≠ "wt"%string →
  fields (finished p c a b) !! k = fields p !! k.
Proof.
  intros. unfold finished, setitem. simpl. by rewrite !lookup_insert_ne.
Qed.

Lemma srtf_records_extend fuel p ps recs aw at' g :
  srtf_scheduling fuel (p :: ps) = Ok (recs, aw, at', g) →
  ∃ ps0, ps0 ≡ₚ alias <$> p :: ps ∧
         Forall2 (λ p0 rec,
                    pid rec = pid p0 ∧
                    ∀ k, k ≠ "ct"%string → k ≠ "tat"%string → k ≠ "wt"%string →
                         fields rec !! k = fields p0 !! k) ps0 recs.
Proof.
  intros Hrun.
  destruct (srtf_run_records _ _ _ _ _ _ _ Hrun) as (ps0 & _ & Hperm & Hlen & Hrecs).
  exists ps0. split; [done|].
  apply Forall2_same_length_lookup_2; [done|].
  intros i p0 rec Hp0 Hrec.
  destruct (Hrecs i rec Hrec) as (p0' & a & b & c & Hp0' & _ & _ & _ & _ & -> & _).
  assert (p0' = p0) as -> by congruence.
  split; [done|]. intros k ? ? ?. by apply finished_other.
Qed.

(** X14. The returned records are the input descriptors themselves
    (after aliasing), none lost and none duplicated, rearranged and with
    their ct, tat and wt entries set: each record has the pid of its
    descriptor and the same value, or absence of a value, under every
    other key. *)
Theorem records_extend_descriptors fuel ps recs aw at' g :
  srtf_scheduling fuel ps = Ok (recs, aw, at', g) →
  ∃ ps0, ps0 ≡ₚ alias <$> ps ∧
         Forall2 (λ p0 rec,
                    pid rec = pid p0 ∧
                    ∀ k, k ≠ "ct"%string → k ≠ "tat"%string → k ≠ "wt"%string →
                         fields rec !! k = fields p0 !! k) ps0 recs.
Proof.
  intros Hrun. destruct ps as [|p ps]; [|by eapply srtf_records_extend].
  injection Hrun as <- <- <- <-. exists []. split; [done|constructor].
Qed.

Lemma records_extend_descriptors_witness :
  ∃ ps0, ps0 ≡ₚ alias <$> [descriptor "P2" 0 1; descriptor "P1" (-2) 3] ∧
         Forall2 (λ p0 rec,
                    pid rec = pid p0 ∧
                    ∀ k, k ≠ "ct"%string → k ≠ "tat"%string → k ≠ "wt"%string →
                         fields rec !! k = fields p0 !! k) ps0
           [record "P1" (-2) 3 4 6 3; record "P2" 0 1 1 1 0].
Proof.
  apply (records_extend_descriptors 4 [descriptor "P2" 0 1; descriptor "P1" (-2) 3]
           [record "P1" (-2) 3 4 6 3; record "P2" 0 1 1 1 0]
           (truediv 3 2) (truediv 7 2) ["P2"; "P1"; "P1"; "P1"]%string).
  vm_compute. reflexivity.
Defined.

(** ** show_selected_process_stats *)

Lemma show_selected_first (recs : list proc) (selected : string) :
  Forall (λ rec, ∃ a b ct : Z,
            fields rec !! "arrival" = Some a ∧
            fields rec !! "burst" = Some b ∧
            fields rec !! "ct" = Some ct ∧
            fields rec !! "tat" = Some (ct - a) ∧
            fields rec !! "wt" = Some (ct - a - b) ∧
            0 ≤ ct - a - b ∧ 0 < b) recs →
  match list_find (λ rec, pid rec = selected) recs with
  | None => show_selected_process_stats recs selected = Ok None
  | Some (_, rec) =>
      ∃ a b ct, fields rec !! "arrival" = Some a ∧
                fields rec !! "burst" = Some b ∧
                fields rec !! "ct" = Some ct ∧ 0 ≤ ct - a - b ∧
                show_selected_process_stats recs selected
                = Ok (Some (ct - a, ct - a - b))
  end.
Proof.
  induction 1 as [|rec recs Hrec _ IH]; [done|].
  cbn [list_find show_selected_process_stats].
  destruct (decide (pid rec = selected)) as [Hp|Hp].
  - destruct Hrec as (a & b & ct & Ha & Hb & Hct & Htat & Hwt & ? & _).
    exists a, b, ct. unfold getitem. rewrite Htat, Hwt. done.
  - destruct (list_find _ recs) as [[i rec']|]; done.
Qed.

(** X15. On the records of a returned result,
    [show_selected_process_stats] never raises: for a pid of the
    dropdown it shows the turnaround and waiting times of the first
    record with that pid (a later record with the same pid is never
    shown), which are ct - arrival and ct - arrival - burst of that
    record; for any other string it leaves the label as it is. *)
Theorem selected_stats fuel ps recs aw at' g (selected : string) :
  srtf_scheduling fuel ps = Ok (recs, aw, at', g) →
  (selected ∈ pid <$> recs →
   ∃ (i : nat) rec a b ct,
     recs !! i = Some rec ∧ pid rec = selected ∧
     (∀ j rec', (j < i)%nat → recs !! j = Some rec' → pid rec' ≠ selected) ∧
     fields rec !! "arrival" = Some a ∧ fields rec !! "burst" = Some b ∧
     fields rec !! "ct" = Some ct ∧ 0 ≤ ct - a - b ∧
     show_selected_process_stats recs selected = Ok (Some (ct - a, ct - a - b))) ∧
  (selected ∉ pid <$> recs →
   show_selected_process_stats recs selected = Ok None).
Proof.
  intros Hrun.
  pose proof (show_selected_first recs selected
                (srtf_record_metrics _ _ _ _ _ _ Hrun)) as Hshow.
  destruct (list_find (λ rec, pid rec = selected) recs) as [[i rec]|] eqn:Hfind.
  - apply list_find_Some in Hfind as (Hrec & Hpid & Hfirst).
    destruct Hshow as (a & b & ct & Ha & Hb & Hct & Hwt & Hshow). split.
    + intros _. exists i, rec, a, b, ct. split_and!; try done.
      intros j rec' Hj Hrec'. by apply (Hfirst j rec').
    + intros Hnot. destruct Hnot. apply list_elem_of_fmap. exists rec.
      split; [done|]. by eapply list_elem_of_lookup_2.
  - apply list_find_None in Hfind. split; [|done].
    intros (rec & Hpid & Hin)%list_elem_of_fmap.
    by destruct (proj1 (list.Forall_forall _ _) Hfind rec Hin).
Qed.

Lemma selected_stats_witness :
  ("P2"%string ∈ pid <$> [record "P1" 0 8 12 12 4; record "P2" 1 4 5 4 0] →
   ∃ (i : nat) rec a b ct,
     [record "P1" 0 8 12 12 4; record "P2" 1 4 5 4 0] !! i = Some rec ∧
     pid rec = "P2"%string ∧
     (∀ j rec', (j < i)%nat →
        [record "P1" 0 8 12 12 4; record "P2" 1 4 5 4 0] !! j = Some rec' →
        pid rec' ≠ "P2"%string) ∧
     fields rec !! "arrival" = Some a ∧ fields rec !! "burst" = Some b ∧
     fields rec !! "ct" = Some ct ∧ 0 ≤ ct - a - b ∧
     show_selected_process_stats
       [record "P1" 0 8 12 12 4; record "P2" 1 4 5 4 0] "P2"
     = Ok (Some (ct - a, ct - a - b))) ∧
  ("P2"%string ∉ pid <$> [record "P1" 0 8 12 12 4; record "P2" 1 4 5 4 0] →
   show_selected_process_stats
     [record "P1" 0 8 12 12 4; record "P2" 1 4 5 4 0] "P2" = Ok None).
Proof.
  apply (selected_stats 12 [descriptor "P1" 0 8; descriptor "P2" 1 4]
           [record "P1" 0 8 12 12 4; record "P2" 1 4 5 4 0]
           (truediv 4 2) (truediv 16 2)
           ["P1"; "P2"; "P2"; "P2"; "P2"; "P1"; "P1"; "P1"; "P1"; "P1"; "P1"; "P1"]%string
           "P2").
  vm_compute. reflexivity.
Defined.
